(** * A FIFO task queue on a last-writer-wins blob store

    Shallow embedding of the serverless functions of the queue demo:
    admission ([queue-task]), the dispatcher ([process-task], in its
    concurrency-ceiling and its rate-limit variant), the status projection
    ([queue-status]) and [clear-queue].

    Every function runs against a [World]: the single blob stored under the
    key "state" together with counters of the effects issued so far.  What the
    outside decides (the clock, whether the store accepts a write, the random
    identifiers, whether the wake signal is delivered, what other actors write
    while this one waits on a timer) is read from an [Env]. *)

From stdpp Require Import gmap strings list fin_maps pretty.

Local Open Scope Z_scope.

(** ** Data model *)

(** A JSON value, as [JSON.parse] produces it.  Numbers are kept integral:
    the code only ever tests a payload for being falsy. *)
#[warnings="-register-all"]
Inductive Json :=
| JNull
| JBool (b : bool)
| JNum (n : Z)
| JStr (s : string)
| JArr (items : list Json)
| JObj (fields : list (string * Json)).

(** JavaScript truthiness of a JSON value. *)
Definition truthy (j : Json) : bool :=
  match j with
  | JNull => false
  | JBool b => b
  | JNum n => negb (n =? 0)
  | JStr s => negb (String.eqb s "")
  | JArr _ => true
  | JObj _ => true
  end.

(** Own property [k] of a parsed object; a later member of the same name
    wins, as in [JSON.parse]. *)
Fixpoint obj_get (k : string) (fields : list (string * Json)) : option Json :=
  match fields with
  | [] => None
  | (k', v) :: rest =>
      match obj_get k rest with
      | Some v' => Some v'
      | None => if String.eqb k k' then Some v else None
      end
  end.

Inductive Status := StQueued | StProcessing | StCompleted | StFailed.

Record Task := {
  id : string;
  status : Status;
  createdAt : Z;
  startedAt : option Z;
  completedAt : option Z;
  data : option Json
}.

(** The aggregate kept in the blob.  [tasks] is the object used as a map,
    read by own keys.  [rateLimitHistory] is [None] when the stored object
    has no such member (states written before the rate limit was
    introduced). *)
Record QueueState := {
  queue : list string;
  processing : list string;
  completed : list string;
  tasks : gmap string Task;
  rateLimitHistory : option (list Z)
}.

(** What a rejected promise carries. *)
Inductive Thrown :=
| ErrorObj (message : string)
| NonError.

Inductive LogEvent :=
| LogNoTasks
| LogMaxConcurrency
| LogRateLimitReached
| LogTaskNotFound (taskId : string)
| LogProcessing (taskId : string) (n : nat)
| LogCompleted (taskId : string)
| LogReceived (eventName : string)
| LogTriggerFailed (e : Thrown)
| LogQueueError (e : Thrown)
| LogClearError (e : Thrown)
| LogStatusError (e : Thrown).

(** ** The world and the effect monad *)

(** What the outside decides, by the number of the call: the value of the
    n-th [Date.now()], whether the n-th [store.set] is taken ([None]) or
    rejected with a thrown value, the n-th minted identifier, whether the
    n-th wake signal is delivered, and what the other actors leave in the
    store during the n-th timer wait of this one. *)
Record Env := {
  now_at : nat -> Z;
  set_at : nat -> option Thrown;
  id_at : nat -> string;
  send_at : nat -> option Thrown;
  meddle : nat -> option QueueState -> option QueueState
}.

(** The blob under the key "state", the snapshots offered to [store.set] so
    far, how many of them were taken, and the counts of clock readings,
    minted identifiers, wake signals and timer waits; then the console. *)
Record World := {
  blob : option QueueState;
  puts : list QueueState;
  commits : nat;
  ticks : nat;
  minted : nat;
  sends : nat;
  naps : nat;
  console : list LogEvent
}.

Inductive Result (A : Type) :=
| Done (a : A)
| Threw (e : Thrown)
| Spin.
Arguments Done {A} a.
Arguments Threw {A} e.
Arguments Spin {A}.

(** A computation ends with a value, with a thrown value, or is still in its
    loop when the fuel given to the loop is spent. *)
Definition M (A : Type) : Type := Env -> World -> Result A * World.

Definition ret {A} (a : A) : M A := fun _ w => (Done a, w).

Definition bind {A B} (c : M A) (k : A -> M B) : M B := fun env w =>
  match c env w with
  | (Done a, w') => k a env w'
  | (Threw e, w') => (Threw e, w')
  | (Spin, w') => (Spin, w')
  end.

Definition throw {A} (e : Thrown) : M A := fun _ w => (Threw e, w).

Definition spin {A} : M A := fun _ w => (Spin, w).

(** [try { c } catch (e) { h e }] *)
Definition try_catch {A} (c : M A) (h : Thrown -> M A) : M A := fun env w =>
  match c env w with
  | (Threw e, w') => h e env w'
  | r => r
  end.

Notation "x <- c ;; k" := (bind c (fun x => k))
  (at level 100, c at next level, right associativity).
Notation "c ;;; k" := (bind c (fun _ => k))
  (at level 100, right associativity).

(** [store.get("state", { type: "json" })]: a read always answers, with the
    value last written ([JSON.stringify] followed by [JSON.parse] is the
    identity on these states) or with nothing. *)
Definition store_get : M (option QueueState) := fun _ w => (Done (blob w), w).

(** [store.set("state", JSON.stringify(s))]: the store takes the whole
    snapshot or rejects it. *)
Definition store_set (s : QueueState) : M unit := fun env w =>
  match set_at env (length (puts w)) with
  | None =>
      (Done tt,
       {| blob := Some s; puts := puts w ++ [s]; commits := S (commits w);
          ticks := ticks w; minted := minted w; sends := sends w;
          naps := naps w; console := console w |})
  | Some e =>
      (Threw e,
       {| blob := blob w; puts := puts w ++ [s]; commits := commits w;
          ticks := ticks w; minted := minted w; sends := sends w;
          naps := naps w; console := console w |})
  end.

(** [Date.now()] *)
Definition Date_now : M Z := fun env w =>
  (Done (now_at env (ticks w)),
   {| blob := blob w; puts := puts w; commits := commits w;
      ticks := S (ticks w); minted := minted w; sends := sends w;
      naps := naps w; console := console w |}).

(** The template string that mints a task identifier from the clock, the
    high-resolution timer and two random suffixes. *)
Definition mint_id : M string := fun env w =>
  (Done (id_at env (minted w)),
   {| blob := blob w; puts := puts w; commits := commits w;
      ticks := ticks w; minted := S (minted w); sends := sends w;
      naps := naps w; console := console w |}).

(** [new AsyncWorkloadsClient().send("process-task")] *)
Definition send_wake : M unit := fun env w =>
  let w' :=
    {| blob := blob w; puts := puts w; commits := commits w;
       ticks := ticks w; minted := minted w; sends := S (sends w);
       naps := naps w; console := console w |} in
  match send_at env (sends w) with
  | None => (Done tt, w')
  | Some e => (Threw e, w')
  end.

(** [await new Promise((resolve) => setTimeout(resolve, ms))]: while this
    actor waits, the others may replace the blob. *)
Definition sleep : M unit := fun env w =>
  (Done tt,
   {| blob := meddle env (naps w) (blob w); puts := puts w;
      commits := commits w; ticks := ticks w; minted := minted w;
      sends := sends w; naps := S (naps w); console := console w |}).

(** [console.log] and [console.error] *)
Definition log (ev : LogEvent) : M unit := fun _ w =>
  (Done tt,
   {| blob := blob w; puts := puts w; commits := commits w;
      ticks := ticks w; minted := minted w; sends := sends w;
      naps := naps w; console := console w ++ [ev] |}).

(** ** Reading and writing the aggregate *)

Definition emptyState : QueueState :=
  {| queue := []; processing := []; completed := []; tasks := ∅;
     rateLimitHistory := Some [] |}.

Definition emptyState_legacy : QueueState :=
  {| queue := []; processing := []; completed := []; tasks := ∅;
     rateLimitHistory := None |}.

(** [getQueueState] of the rate-limit era: an absent blob reads as the empty
    state, an absent history as the empty history. *)
Definition getQueueState : M QueueState :=
  data <- store_get ;;
  match data with
  | None => ret emptyState
  | Some d =>
      match rateLimitHistory d with
      | None =>
          ret {| queue := queue d; processing := processing d;
                 completed := completed d; tasks := tasks d;
                 rateLimitHistory := Some [] |}
      | Some _ => ret d
      end
  end.

(** [getQueueState] of the concurrency era: the parsed object is returned as
    it is. *)
Definition getQueueState_legacy : M QueueState :=
  data <- store_get ;;
  match data with
  | None => ret emptyState_legacy
  | Some d => ret d
  end.

Definition saveQueueState (state : QueueState) : M unit := store_set state.

(** [state.rateLimitHistory.<method>]: a member access on [undefined]
    throws. *)
Definition history (state : QueueState) : M (list Z) :=
  match rateLimitHistory state with
  | Some h => ret h
  | None =>
      throw (ErrorObj "Cannot read properties of undefined")
  end.

(** ** Task transitions shared by both dispatcher variants *)

Definition mark_processing (task : Task) (now : Z) : Task :=
  {| id := id task; status := StProcessing; createdAt := createdAt task;
     startedAt := Some now; completedAt := completedAt task;
     data := data task |}.

Definition mark_completed (task : Task) (now : Z) : Task :=
  {| id := id task; status := StCompleted; createdAt := createdAt task;
     startedAt := startedAt task; completedAt := Some now;
     data := data task |}.

(** [l.indexOf(x)] followed by [l.splice(index, 1)] when the index is not
    -1: the first occurrence goes, later ones stay. *)
Fixpoint splice_first (x : string) (l : list string) : list string :=
  match l with
  | [] => []
  | y :: rest => if decide (y = x) then rest else y :: splice_first x rest
  end.

(** ** The dispatcher, concurrency variant *)

Module Ceiling.

Definition MAX_CONCURRENCY : nat := 6.

(** The first half of [processNextTask], up to the log line after the save:
    [Some taskId] when a task was started, [None] when the turn returned
    early. *)
Definition startNext : M (option string) :=
  state <- getQueueState_legacy ;;
  if decide (MAX_CONCURRENCY <= length (processing state))%nat then
    log LogMaxConcurrency ;;; ret None
  else
    match queue state with
    | [] => log LogNoTasks ;;; ret None
    | taskId :: rest =>
        match tasks state !! taskId with
        | None => log (LogTaskNotFound taskId) ;;; ret None
        | Some task =>
            started <- Date_now ;;
            saveQueueState
              {| queue := rest;
                 processing := processing state ++ [taskId];
                 completed := completed state;
                 tasks := <[taskId := mark_processing task started]>
                            (tasks state);
                 rateLimitHistory := rateLimitHistory state |} ;;;
            log (LogProcessing taskId (length (processing state) + 1)) ;;;
            ret (Some taskId)
        end
    end.

(** The second half: completion on a fresh read, then the wake signal for
    the next turn when there is work and room for it. *)
Definition finish (taskId : string) : M unit :=
  updatedState <- getQueueState_legacy ;;
  let processing' := splice_first taskId (processing updatedState) in
  marked <-
    match tasks updatedState !! taskId with
    | Some task =>
        now <- Date_now ;;
        ret {| queue := queue updatedState;
               processing := processing';
               completed := completed updatedState ++ [taskId];
               tasks := <[taskId := mark_completed task now]>
                          (tasks updatedState);
               rateLimitHistory := rateLimitHistory updatedState |}
    | None =>
        ret {| queue := queue updatedState;
               processing := processing';
               completed := completed updatedState;
               tasks := tasks updatedState;
               rateLimitHistory := rateLimitHistory updatedState |}
    end ;;
  saveQueueState marked ;;;
  log (LogCompleted taskId) ;;;
  finalState <- getQueueState_legacy ;;
  if decide (0 < length (queue finalState))%nat then
    if decide (length (processing finalState) < MAX_CONCURRENCY)%nat
    then send_wake
    else ret tt
  else ret tt.

Definition processNextTask : M unit :=
  started <- startNext ;;
  match started with
  | None => ret tt
  | Some taskId => sleep ;;; finish taskId
  end.

Definition handler (eventName : string) : M unit :=
  log (LogReceived eventName) ;;;
  if decide (eventName = "process-task") then processNextTask else ret tt.

End Ceiling.

(** ** The dispatcher, rate-limit variant *)

Module RateLimit.

Definition RATE_LIMIT_REQUESTS : nat := 250.

(** The first half of [processNextTask], up to the log line after the save:
    [Some taskId] when a task was started, [None] when the turn returned
    early. *)
Definition startNext : M (option string) :=
  state <- getQueueState ;;
  match queue state with
  | [] => log LogNoTasks ;;; ret None
  | taskId :: rest =>
      now <- Date_now ;;
      let oneMinuteAgo := now - 60000 in
      h <- history state ;;
      let recentStarts :=
        length (filter (λ timestamp, timestamp > oneMinuteAgo) h) in
      if decide (RATE_LIMIT_REQUESTS <= recentStarts)%nat then
        log LogRateLimitReached ;;; ret None
      else
        match tasks state !! taskId with
        | None => log (LogTaskNotFound taskId) ;;; ret None
        | Some task =>
            started <- Date_now ;;
            pushed <- Date_now ;;
            pruneNow <- Date_now ;;
            let oneHourAgo := pruneNow - 3600000 in
            saveQueueState
              {| queue := rest;
                 processing := processing state ++ [taskId];
                 completed := completed state;
                 tasks := <[taskId := mark_processing task started]>
                            (tasks state);
                 rateLimitHistory :=
                   Some (filter (λ timestamp, timestamp > oneHourAgo)
                           (h ++ [pushed])) |} ;;;
            log (LogProcessing taskId (recentStarts + 1)) ;;;
            ret (Some taskId)
        end
  end.

(** The second half: completion on a fresh read, then the wake signal for
    the next turn when the rate gate is open. *)
Definition finish (taskId : string) : M unit :=
  updatedState <- getQueueState ;;
  let processing' := splice_first taskId (processing updatedState) in
  marked <-
    match tasks updatedState !! taskId with
    | Some task =>
        now <- Date_now ;;
        ret {| queue := queue updatedState;
               processing := processing';
               completed := completed updatedState ++ [taskId];
               tasks := <[taskId := mark_completed task now]>
                          (tasks updatedState);
               rateLimitHistory := rateLimitHistory updatedState |}
    | None =>
        ret {| queue := queue updatedState;
               processing := processing';
               completed := completed updatedState;
               tasks := tasks updatedState;
               rateLimitHistory := rateLimitHistory updatedState |}
    end ;;
  saveQueueState marked ;;;
  log (LogCompleted taskId) ;;;
  finalState <- getQueueState ;;
  if decide (0 < length (queue finalState))%nat then
    finalNow <- Date_now ;;
    let finalOneMinuteAgo := finalNow - 60000 in
    h <- history finalState ;;
    let finalRecentStarts :=
      length (filter (λ timestamp, timestamp > finalOneMinuteAgo) h) in
    if decide (finalRecentStarts < RATE_LIMIT_REQUESTS)%nat then send_wake
    else ret tt
  else ret tt.

Definition processNextTask : M unit :=
  started <- startNext ;;
  match started with
  | None => ret tt
  | Some taskId => sleep ;;; finish taskId
  end.

Definition handler (eventName : string) : M unit :=
  log (LogReceived eventName) ;;;
  if decide (eventName = "process-task") then processNextTask else ret tt.

End RateLimit.

(** ** Requests and responses *)

(** [json] is [None] when [req.json()] rejects: no body, or a body that is
    not JSON. *)
Record Request := {
  method : string;
  json : option Json
}.

Record Stats := {
  queuedCount : nat;
  processingCount : nat;
  completedCount : nat;
  totalTasks : nat
}.

Record RateLimitInfo := {
  limit : nat;
  windowSeconds : nat;
  used : nat;
  remaining : Z;
  resetAt : option Z
}.

Record Report := {
  r_queued : list Task;
  r_processing : list Task;
  r_completed : list Task;
  stats : Stats;
  rateLimit : RateLimitInfo
}.

Inductive Body :=
| Text (s : string)
| Accepted (taskId : string) (position : nat)
| Refused (error : string)
| Cleared
| Reported (r : Report).

Record Response := {
  code : nat;
  body : Body
}.

(** [error instanceof Error ? error.message : "Unknown error"] *)
Definition error_message (error : Thrown) : string :=
  match error with
  | ErrorObj message => message
  | NonError => "Unknown error"
  end.

(** [body.data]: reading a member of [null] throws, a primitive or an array
    has no such member. *)
Definition body_data (body : Json) : M (option Json) :=
  match body with
  | JNull => throw (ErrorObj "Cannot read properties of null (reading 'data')")
  | JObj fields => ret (obj_get "data" fields)
  | _ => ret None
  end.

(** [d || {}] *)
Definition or_empty (d : option Json) : Json :=
  match d with
  | Some j => if truthy j then j else JObj []
  | None => JObj []
  end.

Definition with_id (task : Task) (taskId : string) : Task :=
  {| id := taskId; status := status task; createdAt := createdAt task;
     startedAt := startedAt task; completedAt := completedAt task;
     data := data task |}.

(** ** Admission with retries, concurrency era ([queue-task.mts]) *)

Module Admission.

(** The [while (retries > 0 && !success)] loop.  A colliding identifier is
    replaced without spending a retry, so the loop is bounded by [fuel]; the
    result is the identifier in use, the last value of [state] and
    [success]. *)
Fixpoint retry_loop (fuel retries : nat) (taskId : string) (task : Task)
    (state : option QueueState) : M (string * option QueueState * bool) :=
  match retries with
  | O => ret (taskId, state, false)
  | S retries' =>
      match fuel with
      | O => spin
      | S fuel' =>
          st <- getQueueState_legacy ;;
          match tasks st !! taskId with
          | Some _ =>
              taskId' <- mint_id ;;
              retry_loop fuel' retries taskId' (with_id task taskId')
                (Some st)
          | None =>
              let st' :=
                {| queue := queue st ++ [taskId];
                   processing := processing st;
                   completed := completed st;
                   tasks := <[taskId := task]> (tasks st);
                   rateLimitHistory := rateLimitHistory st |} in
              try_catch
                (saveQueueState st' ;;; ret (taskId, Some st', true))
                (fun _ =>
                   (if decide (0 < retries')%nat then sleep else ret tt) ;;;
                   retry_loop fuel' retries' taskId task (Some st'))
          end
      end
  end.

Definition queue_task (fuel : nat) (req : Request) : M Response :=
  if decide (method req <> "POST") then
    ret {| code := 405; body := Text "Method not allowed" |}
  else
    try_catch
      (let body := default (JObj []) (json req) in
       taskId <- mint_id ;;
       created <- Date_now ;;
       d <- body_data body ;;
       let task :=
         {| id := taskId; status := StQueued; createdAt := created;
            startedAt := None; completedAt := None;
            data := Some (or_empty d) |} in
       r <- retry_loop fuel 5 taskId task None ;;
       match r with
       | (taskId, Some state, true) =>
           (if decide (length (processing state) < Ceiling.MAX_CONCURRENCY)%nat
            then try_catch send_wake (fun error => log (LogTriggerFailed error))
            else ret tt) ;;;
           ret {| code := 200;
                  body := Accepted taskId (length (queue state)) |}
       | _ => throw (ErrorObj "Failed to queue task after retries")
       end)
      (fun error =>
         log (LogQueueError error) ;;;
         ret {| code := 500; body := Refused (error_message error) |}).

End Admission.

(** ** Admission with retries, rate-limit era *)

Module AdmissionRL.

(** The loop keeps the snapshot [state] read before it and copies that
    snapshot's history into every state it writes. *)
Fixpoint retry_loop (fuel retries : nat) (taskId : string) (task : Task)
    (state : QueueState) : M (string * QueueState * bool) :=
  match retries with
  | O => ret (taskId, state, false)
  | S retries' =>
      match fuel with
      | O => spin
      | S fuel' =>
          currentState <- getQueueState ;;
          match tasks currentState !! taskId with
          | Some _ =>
              taskId' <- mint_id ;;
              retry_loop fuel' retries taskId' (with_id task taskId') state
          | None =>
              let currentState' :=
                {| queue := queue currentState ++ [taskId];
                   processing := processing currentState;
                   completed := completed currentState;
                   tasks := <[taskId := task]> (tasks currentState);
                   rateLimitHistory := rateLimitHistory state |} in
              try_catch
                (saveQueueState currentState' ;;;
                 ret (taskId, currentState', true))
                (fun _ =>
                   (if decide (0 < retries')%nat then sleep else ret tt) ;;;
                   retry_loop fuel' retries' taskId task state)
          end
      end
  end.

Definition queue_task (fuel : nat) (req : Request) : M Response :=
  if decide (method req <> "POST") then
    ret {| code := 405; body := Text "Method not allowed" |}
  else
    try_catch
      (let body := default (JObj []) (json req) in
       taskId <- mint_id ;;
       created <- Date_now ;;
       d <- body_data body ;;
       let task :=
         {| id := taskId; status := StQueued; createdAt := created;
            startedAt := None; completedAt := None;
            data := Some (or_empty d) |} in
       state <- getQueueState ;;
       r <- retry_loop fuel 5 taskId task state ;;
       match r with
       | (taskId, state, true) =>
           try_catch send_wake (fun error => log (LogTriggerFailed error)) ;;;
           ret {| code := 200;
                  body := Accepted taskId (length (queue state)) |}
       | _ => throw (ErrorObj "Failed to queue task after retries")
       end)
      (fun error =>
         log (LogQueueError error) ;;;
         ret {| code := 500; body := Refused (error_message error) |}).

End AdmissionRL.

(** ** The status projection *)

(** [Math.min(...l)]: no argument gives [Infinity], which [JSON.stringify]
    writes as [null]. *)
Definition Math_min (l : list Z) : option Z :=
  match l with
  | [] => None
  | t :: ts => Some (foldl Z.min t ts)
  end.

(** [ids.map((id) => state.tasks[id]).filter(Boolean)] *)
Definition resolve (state : QueueState) (ids : list string) : list Task :=
  omap (λ i, tasks state !! i) ids.

(** [l.slice(-50)] *)
Definition last50 (l : list string) : list string :=
  drop (length l - 50)%nat l.

Definition queue_status (req : Request) : M Response :=
  if decide (method req <> "GET") then
    ret {| code := 405; body := Text "Method not allowed" |}
  else
    try_catch
      (state <- getQueueState ;;
       let queued := resolve state (queue state) in
       let processing := resolve state (processing state) in
       let completed := resolve state (last50 (completed state)) in
       now <- Date_now ;;
       let oneMinuteAgo := now - 60000 in
       h <- history state ;;
       let recentStarts :=
         length (filter (λ timestamp, timestamp > oneMinuteAgo) h) in
       ret {| code := 200;
              body := Reported
                {| r_queued := queued;
                   r_processing := processing;
                   r_completed := completed;
                   stats :=
                     {| queuedCount := length queued;
                        processingCount := length processing;
                        completedCount := length completed;
                        totalTasks := size (tasks state) |};
                   rateLimit :=
                     {| limit := 250;
                        windowSeconds := 60;
                        used := recentStarts;
                        remaining := Z.max 0 (250 - Z.of_nat recentStarts);
                        resetAt :=
                          if decide (0 < length h)%nat then
                            if decide (0 < recentStarts)%nat then
                              (λ m, m + 60000) <$>
                                Math_min (filter (λ t, t > oneMinuteAgo) h)
                            else None
                          else None |} |} |})
      (fun error =>
         log (LogStatusError error) ;;;
         ret {| code := 500; body := Refused (error_message error) |}).

(** ** Clear *)

Definition clear_queue (req : Request) : M Response :=
  if decide (method req <> "POST") then
    ret {| code := 405; body := Text "Method not allowed" |}
  else
    try_catch
      (store_set emptyState ;;;
       ret {| code := 200; body := Cleared |})
      (fun error =>
         log (LogClearError error) ;;;
         ret {| code := 500; body := Refused (error_message error) |}).

(** ** Vocabulary of the statements *)

(** What [getQueueState] makes of the blob. *)
Definition view (b : option QueueState) : QueueState :=
  match b with
  | None => emptyState
  | Some d =>
      match rateLimitHistory d with
      | None =>
          {| queue := queue d; processing := processing d;
             completed := completed d; tasks := tasks d;
             rateLimitHistory := Some [] |}
      | Some _ => d
      end
  end.

(** What [getQueueState_legacy] makes of the blob. *)
Definition view_legacy (b : option QueueState) : QueueState :=
  match b with
  | None => emptyState_legacy
  | Some d => d
  end.

(** The starts log of a state. *)
Definition starts (s : QueueState) : list Z := default [] (rateLimitHistory s).

(** The entries of the starts log after [now - 60000]. *)
Definition in_window (now : Z) (h : list Z) : list Z :=
  filter (λ timestamp, timestamp > now - 60000) h.

Definition quiet (env : Env) : Prop := ∀ n b, meddle env n b = b.

(** A clock that advances by one millisecond per reading, a store that takes
    every write, identifiers task-1700000000000-0, task-1700000000000-1,
    ..., a wake signal that is delivered, and nobody else writing. *)
Definition calm : Env :=
  {| now_at := λ n, 1700000000000 + Z.of_nat n;
     set_at := λ _, None;
     id_at := λ n, "task-1700000000000-" +:+ pretty n;
     send_at := λ _, None;
     meddle := λ _ b, b |}.

Definition fresh_world (b : option QueueState) : World :=
  {| blob := b; puts := []; commits := 0; ticks := 0; minted := 0;
     sends := 0; naps := 0; console := [] |}.

Definition sample_task (taskId : string) : Task :=
  {| id := taskId; status := StQueued; createdAt := 1699999990000;
     startedAt := None; completedAt := None; data := Some (JObj []) |}.

(** One pending task with its record, one start 30 seconds before [calm]'s
    clock and one two hours before it. *)
Definition one_pending : QueueState :=
  {| queue := ["task-a"]; processing := []; completed := [];
     tasks := {[ "task-a" := sample_task "task-a" ]};
     rateLimitHistory := Some [1699992800000; 1699999970000] |}.

(** A turn that returns normally and leaves the store alone: no write was
    offered, none was taken, the blob and hence pending are what they
    were. *)
Definition idle_turn (turn : M unit) (env : Env) (w : World) : Prop :=
  ∃ w',
    turn env w = (Done tt, w') ∧
    blob w' = blob w ∧ puts w' = puts w ∧ commits w' = commits w ∧
    queue (view_legacy (blob w')) = queue (view_legacy (blob w)).

(** Six tasks in flight and one waiting. *)
Definition six_in_flight : QueueState :=
  {| queue := ["task-g"];
     processing := ["task-a"; "task-b"; "task-c"; "task-d"; "task-e";
                    "task-f"];
     completed := [];
     tasks := list_to_map
       ((λ i, (i, sample_task i)) <$>
          ["task-a"; "task-b"; "task-c"; "task-d"; "task-e"; "task-f";
           "task-g"]);
     rateLimitHistory := None |}.

(** 250 starts in the last second and one task waiting. *)
Definition window_full : QueueState :=
  {| queue := ["task-a"]; processing := []; completed := [];
     tasks := {[ "task-a" := sample_task "task-a" ]};
     rateLimitHistory := Some (replicate 250 1699999999000) |}.


Definition get_request : Request := {| method := "GET"; json := None |}.

Definition post_request (body : option Json) : Request :=
  {| method := "POST"; json := body |}.

(** The body admission works on: [await req.json().catch(() => ({}))]. *)
Definition body_of (req : Request) : Json := default (JObj []) (json req).

(** The [data] member of a parsed body, when it has one. *)
Definition data_member (body : Json) : option Json :=
  match body with
  | JObj fields => obj_get "data" fields
  | _ => None
  end.

(** From the [c]-th candidate on, the identifiers tried by a retry loop are
    not yet keys of [m]; the candidates are [taskId] and then the
    identifiers minted from index [next] on. *)
Definition fresh_after (env : Env) (m : gmap string Task) (c : nat)
    (taskId : string) (next : nat) : Prop :=
  (c = 0%nat → m !! taskId = None) ∧
  ∀ n, (c <= S n)%nat → m !! id_at env (next + n) = None.

(** A store that rejects every write; everything else as in [calm]. *)
Definition store_down : Env :=
  {| now_at := now_at calm;
     set_at := λ _, Some (ErrorObj "blob store unavailable");
     id_at := id_at calm;
     send_at := send_at calm;
     meddle := meddle calm |}.

(** *** The consistency invariant *)

(** The identifiers a state lists, pending first. *)
Definition listed (s : QueueState) : list string :=
  queue s ++ processing s ++ completed s.

(** Every listed identifier has a task record. *)
Definition recorded (s : QueueState) : Prop :=
  Forall (λ i, is_Some (tasks s !! i)) (listed s).

(** No identifier is in two of the three lists. *)
Definition exclusive (s : QueueState) : Prop :=
  ∀ i,
    ¬ (i ∈ queue s ∧ i ∈ processing s) ∧
    ¬ (i ∈ queue s ∧ i ∈ completed s) ∧
    ¬ (i ∈ processing s ∧ i ∈ completed s).

Definition consistent (s : QueueState) : Prop := recorded s ∧ exclusive s.

(** The stronger reading: no identifier occurs twice in the three lists
    taken together. *)
Definition consistent_strict (s : QueueState) : Prop :=
  recorded s ∧ NoDup (listed s).

Definition consistent_blob (b : option QueueState) : Prop :=
  consistent_strict (view_legacy b).

(** The store rejects the first write and takes the later ones. *)
Definition first_write_lost : Env :=
  {| now_at := now_at calm;
     set_at := λ n, match n with
                    | O => Some (ErrorObj "blob store unavailable")
                    | S _ => None
                    end;
     id_at := id_at calm;
     send_at := send_at calm;
     meddle := meddle calm |}.

(** [one_pending] after a dispatcher has started task-a. *)
Definition one_started : QueueState :=
  {| queue := []; processing := ["task-a"]; completed := [];
     tasks := {[ "task-a" := mark_processing (sample_task "task-a")
                               1700000000001 ]};
     rateLimitHistory := Some [1699999970000; 1700000000002] |}.

(** The first write is rejected and, while admission backs off, a dispatcher
    writes [one_started]. *)
Definition dispatcher_between : Env :=
  {| now_at := now_at calm;
     set_at := set_at first_write_lost;
     id_at := id_at calm;
     send_at := send_at calm;
     meddle := λ n b, match n with
                      | O => Some one_started
                      | S _ => b
                      end |}.

(** What an admission writes that read [one_pending] before the dispatcher
    claimed task-a and saved after it: task-a is pending again. *)
Definition claim_overwritten : QueueState :=
  {| queue := ["task-a"; "task-b"]; processing := []; completed := [];
     tasks := {[ "task-a" := sample_task "task-a";
                 "task-b" := sample_task "task-b" ]};
     rateLimitHistory := Some [1699992800000; 1699999970000] |}.

(** While the dispatcher runs task-a, [claim_overwritten] lands in the
    store. *)
Definition admission_between : Env :=
  {| now_at := now_at calm;
     set_at := set_at calm;
     id_at := id_at calm;
     send_at := send_at calm;
     meddle := λ n b, match n with
                      | O => Some claim_overwritten
                      | S _ => b
                      end |}.

(** A computation that never changes the blob. *)
Definition keeps_blob {A} (c : M A) : Prop :=
  ∀ env w, blob (c env w).2 = blob w.

(** A computation that leaves a consistent blob consistent. *)
Definition keeps_consistency {A} (env : Env) (c : M A) : Prop :=
  ∀ w, consistent_blob (blob w) → consistent_blob (blob (c env w).2).

(** What the other actors write is consistent whenever what they found
    was. *)
Definition others_consistent (env : Env) : Prop :=
  ∀ n b, consistent_blob b → consistent_blob (meddle env n b).

(** ** Admission without retries ([queue-task.ts]) *)

Module AdmissionV1.

(** One read, one write: no collision check, no retry. *)
Definition queue_task (req : Request) : M Response :=
  if decide (method req <> "POST") then
    ret {| code := 405; body := Text "Method not allowed" |}
  else
    try_catch
      (let body := default (JObj []) (json req) in
       taskId <- mint_id ;;
       created <- Date_now ;;
       d <- body_data body ;;
       let task :=
         {| id := taskId; status := StQueued; createdAt := created;
            startedAt := None; completedAt := None;
            data := Some (or_empty d) |} in
       state <- getQueueState_legacy ;;
       let state' :=
         {| queue := queue state ++ [taskId];
            processing := processing state;
            completed := completed state;
            tasks := <[taskId := task]> (tasks state);
            rateLimitHistory := rateLimitHistory state |} in
       saveQueueState state' ;;;
       (if decide (length (processing state') < Ceiling.MAX_CONCURRENCY)%nat
        then try_catch send_wake (fun error => log (LogTriggerFailed error))
        else ret tt) ;;;
       ret {| code := 200;
              body := Accepted taskId (length (queue state')) |})
      (fun error =>
         log (LogQueueError error) ;;;
         ret {| code := 500; body := Refused (error_message error) |}).

End AdmissionV1.

(** ** The status projection of the concurrency era *)

Record LegacyReport := {
  l_queued : list Task;
  l_processing : list Task;
  l_completed : list Task;
  l_stats : Stats
}.

Inductive LegacyBody :=
| LText (s : string)
| LReported (r : LegacyReport)
| LRefused (error : string).

Record LegacyResponse := {
  l_code : nat;
  l_body : LegacyBody
}.

Definition queue_status_legacy (req : Request) : M LegacyResponse :=
  if decide (method req <> "GET") then
    ret {| l_code := 405; l_body := LText "Method not allowed" |}
  else
    try_catch
      (state <- getQueueState_legacy ;;
       let queued := resolve state (queue state) in
       let processing := resolve state (processing state) in
       let completed := resolve state (last50 (completed state)) in
       ret {| l_code := 200;
              l_body := LReported
                {| l_queued := queued;
                   l_processing := processing;
                   l_completed := completed;
                   l_stats :=
                     {| queuedCount := length queued;
                        processingCount := length processing;
                        completedCount := length completed;
                        totalTasks := size (tasks state) |} |} |})
      (fun error =>
         log (LogStatusError error) ;;;
         ret {| l_code := 500; l_body := LRefused (error_message error) |}).

(** ** Vocabulary of the further statements *)

(** A computation that leaves a blob with property [P] with property [P]. *)
Definition preserves {A} (P : option QueueState → Prop) (env : Env)
    (c : M A) : Prop :=
  ∀ w, P (blob w) → P (blob (c env w).2).

(** The others keep [P] too. *)
Definition others_preserve (P : option QueueState → Prop) (env : Env) : Prop :=
  ∀ n b, P b → P (meddle env n b).

(** At most six identifiers in flight. *)
Definition within_ceiling (b : option QueueState) : Prop :=
  (length (processing (view_legacy b)) <= Ceiling.MAX_CONCURRENCY)%nat.

(** Two tasks in flight, two waiting, one done. *)
Definition busy : QueueState :=
  {| queue := ["task-c"; "task-d"];
     processing := ["task-a"; "task-b"];
     completed := ["task-z"];
     tasks := list_to_map
       ((λ i, (i, sample_task i)) <$>
          ["task-a"; "task-b"; "task-c"; "task-d"; "task-z"]);
     rateLimitHistory := Some [1699999970000; 1699999980000] |}.

(** The wake signal is never delivered; everything else as in [calm]. *)
Definition wake_lost : Env :=
  {| now_at := now_at calm;
     set_at := set_at calm;
     id_at := id_at calm;
     send_at := λ _, Some (ErrorObj "event router returned 404");
     meddle := meddle calm |}.

(** The store rejects the first three writes and takes the later ones. *)
Definition three_writes_lost : Env :=
  {| now_at := now_at calm;
     set_at := λ n, if decide (n < 3)%nat
                    then Some (ErrorObj "blob store unavailable")
                    else None;
     id_at := id_at calm;
     send_at := send_at calm;
     meddle := meddle calm |}.

(** The state a completion of [taskId] at time [now] makes of [state]. *)
Definition completion_of (state : QueueState) (taskId : string) (now : Z)
    : QueueState :=
  match tasks state !! taskId with
  | Some task =>
      {| queue := queue state;
         processing := splice_first taskId (processing state);
         completed := completed state ++ [taskId];
         tasks := <[taskId := mark_completed task now]> (tasks state);
         rateLimitHistory := rateLimitHistory state |}
  | None =>
      {| queue := queue state;
         processing := splice_first taskId (processing state);
         completed := completed state;
         tasks := tasks state;
         rateLimitHistory := rateLimitHistory state |}
  end.

(** The clock reading that follows a completion of [taskId] on [state]: the
    completion reads the clock itself only when the record is there. *)
Definition ticks_after_completion (state : QueueState) (taskId : string)
    (ticks0 : nat) : nat :=
  match tasks state !! taskId with
  | Some _ => S ticks0
  | None => ticks0
  end.

(** [busy] after task-a has gone from processing: its record is gone too. *)
Definition record_dropped : QueueState :=
  {| queue := ["task-c"]; processing := ["task-a"; "task-b"];
     completed := [];
     tasks := list_to_map
       ((λ i, (i, sample_task i)) <$> ["task-b"; "task-c"]);
     rateLimitHistory := Some [1699999970000] |}.

(** The completion from its write on, for the state [marked] it saves. *)
Definition completion_tail (taskId : string) (marked : QueueState) : M unit :=
  saveQueueState marked ;;;
  log (LogCompleted taskId) ;;;
  finalState <- getQueueState ;;
  if decide (0 < length (queue finalState))%nat then
    finalNow <- Date_now ;;
    let finalOneMinuteAgo := finalNow - 60000 in
    h <- history finalState ;;
    let finalRecentStarts :=
      length (filter (λ timestamp, timestamp > finalOneMinuteAgo) h) in
    if decide (finalRecentStarts < RateLimit.RATE_LIMIT_REQUESTS)%nat
    then send_wake
    else ret tt
  else ret tt.

(** The world in which that write is offered: the clock has been read once
    more when the record of [taskId] was there. *)
Definition world_at_completion (state : QueueState) (taskId : string)
    (w : World) : World :=
  match tasks state !! taskId with
  | Some _ =>
      {| blob := blob w; puts := puts w; commits := commits w;
         ticks := S (ticks w); minted := minted w; sends := sends w;
         naps := naps w; console := console w |}
  | None => w
  end.

(** What admission makes of the state it read. *)
Definition appended (state : QueueState) (taskId : string) (task : Task)
    : QueueState :=
  {| queue := queue state ++ [taskId];
     processing := processing state;
     completed := completed state;
     tasks := <[taskId := task]> (tasks state);
     rateLimitHistory := rateLimitHistory state |}.

(** A state whose pending list already holds the identifier that [calm]
    mints first. *)
Definition collision_ahead : QueueState :=
  {| queue := ["task-1700000000000-0"]; processing := []; completed := [];
     tasks := {[ "task-1700000000000-0" :=
                   mark_processing (sample_task "task-1700000000000-0")
                     1699999995000 ]};
     rateLimitHistory := None |}.

(** Pending lists an identifier whose record is gone. *)
Definition sixty_done : QueueState :=
  {| queue := ["task-lost"; "task-a"]; processing := [];
     completed := replicate 60 "task-a";
     tasks := {[ "task-a" := sample_task "task-a" ]};
     rateLimitHistory := Some [] |}.

(** The completion of the concurrency variant from its write on. *)
Definition ceiling_completion_tail (taskId : string) (marked : QueueState)
    : M unit :=
  saveQueueState marked ;;;
  log (LogCompleted taskId) ;;;
  finalState <- getQueueState_legacy ;;
  if decide (0 < length (queue finalState))%nat then
    if decide (length (processing finalState) < Ceiling.MAX_CONCURRENCY)%nat
    then send_wake
    else ret tt
  else ret tt.

(** The first two identifiers that [calm] mints have records already. *)
Definition two_collisions : QueueState :=
  {| queue := ["task-1700000000000-0"];
     processing := ["task-1700000000000-1"]; completed := [];
     tasks := {[ "task-1700000000000-0" :=
                   sample_task "task-1700000000000-0";
                 "task-1700000000000-1" :=
                   mark_processing (sample_task "task-1700000000000-1")
                     1699999995000 ]};
     rateLimitHistory := None |}.



(** * Properties *)

Tactic Notation "world" :=
  cbn [blob puts commits ticks minted sends naps console].
Tactic Notation "world" "in" hyp(H) :=
  cbn [blob puts commits ticks minted sends naps console] in H.

(** ** Reading the aggregate *)

Lemma getQueueState_run env w :
  getQueueState env w = (Done (view (blob w)), w).
Proof.
  unfold getQueueState, bind, store_get, view.
  destruct (blob w) as [d|]; [destruct (rateLimitHistory d)|]; reflexivity.
Qed.

Lemma getQueueState_legacy_run env w :
  getQueueState_legacy env w = (Done (view_legacy (blob w)), w).
Proof.
  unfold getQueueState_legacy, bind, store_get, view_legacy.
  destruct (blob w); reflexivity.
Qed.

Lemma view_history b : rateLimitHistory (view b) = Some (starts (view b)).
Proof.
  unfold starts, view. destruct b as [d|]; [|reflexivity].
  destruct (rateLimitHistory d) eqn:E; simpl; [rewrite E|]; reflexivity.
Qed.

Lemma history_view_run b env w :
  history (view b) env w = (Done (starts (view b)), w).
Proof. unfold history. rewrite view_history. reflexivity. Qed.

(** ** The rate-limit dispatcher *)

(** C1.  When pending is non-empty, fewer than 250 starts lie in the trailing
    minute, the head of pending has a task record and the store takes the
    write, the start phase of a turn persists the state in which the head has
    left pending, its task is processing with a start timestamp, its
    identifier is the last of the in-flight list, and the starts log is the
    old log plus the current timestamp, filtered to the entries after the
    one-hour horizon. *)
Theorem start_claims_head env w taskId rest task :
  queue (view (blob w)) = taskId :: rest ->
  (length (in_window (now_at env (ticks w)) (starts (view (blob w))))
   < RateLimit.RATE_LIMIT_REQUESTS)%nat ->
  tasks (view (blob w)) !! taskId = Some task ->
  set_at env (length (puts w)) = None ->
  let state := view (blob w) in
  let started := now_at env (S (ticks w)) in
  let pushed := now_at env (S (S (ticks w))) in
  let horizon := now_at env (S (S (S (ticks w)))) - 3600000 in
  let claimed :=
    {| queue := rest;
       processing := processing state ++ [taskId];
       completed := completed state;
       tasks :=
         <[taskId :=
             {| id := id task; status := StProcessing;
                createdAt := createdAt task; startedAt := Some started;
                completedAt := completedAt task; data := data task |}]>
           (tasks state);
       rateLimitHistory :=
         Some (filter (λ timestamp, horizon < timestamp)
                 (starts state ++ [pushed])) |} in
  ∃ w',
    RateLimit.startNext env w = (Done (Some taskId), w') ∧
    blob w' = Some claimed ∧
    puts w' = puts w ++ [claimed] ∧
    Forall (λ timestamp, horizon < timestamp) (starts claimed).
Proof.
  intros Hq Hr Ht Hs state started pushed horizon claimed.
  unfold RateLimit.startNext, bind at 1. rewrite getQueueState_run.
  rewrite Hq. unfold bind at 1, Date_now at 1. cbv beta iota.
  unfold bind at 1. rewrite history_view_run. world.
  destruct (decide _) as [Hge|_]; [unfold in_window in Hr; lia|].
  rewrite Ht.
  unfold bind, Date_now, saveQueueState, store_set, log, ret. world.
  rewrite Hs. eexists. split; [reflexivity|]. world.
  assert (Hsame : filter (λ timestamp, timestamp > horizon)
                    (starts state ++ [pushed])
                  = filter (λ timestamp, horizon < timestamp)
                      (starts state ++ [pushed])).
  { apply list_filter_iff. intros x. lia. }
  fold state started pushed horizon. unfold mark_processing.
  rewrite Hsame. fold claimed.
  split; [reflexivity|]. split; [reflexivity|].
  unfold claimed, starts at 1. cbn [rateLimitHistory default].
  apply Forall_forall. intros x Hx. apply list_elem_of_filter in Hx. tauto.
Qed.

Lemma start_claims_head_witness :
  ∃ w',
    RateLimit.startNext calm (fresh_world (Some one_pending))
      = (Done (Some "task-a"), w') ∧
    (starts <$> blob w') = Some [1699999970000; 1700000000002].
Proof.
  destruct (start_claims_head calm (fresh_world (Some one_pending))
              "task-a" [] (sample_task "task-a"))
    as (w' & Hrun & Hblob & _ & _).
  - reflexivity.
  - vm_compute. lia.
  - reflexivity.
  - reflexivity.
  - exists w'. split; [exact Hrun|]. rewrite Hblob. vm_compute. reflexivity.
Defined.

Lemma view_legacy_queue b : queue (view b) = queue (view_legacy b).
Proof.
  destruct b as [d|]; [|reflexivity].
  unfold view, view_legacy. destruct (rateLimitHistory d); reflexivity.
Qed.

Lemma view_legacy_tasks b : tasks (view b) = tasks (view_legacy b).
Proof.
  destruct b as [d|]; [|reflexivity].
  unfold view, view_legacy. destruct (rateLimitHistory d); reflexivity.
Qed.

Lemma view_legacy_processing b :
  processing (view b) = processing (view_legacy b).
Proof.
  destruct b as [d|]; [|reflexivity].
  unfold view, view_legacy. destruct (rateLimitHistory d); reflexivity.
Qed.

Lemma view_legacy_completed b :
  completed (view b) = completed (view_legacy b).
Proof.
  destruct b as [d|]; [|reflexivity].
  unfold view, view_legacy. destruct (rateLimitHistory d); reflexivity.
Qed.

(** C2.  With the gate of the variant closed (six or more in flight, or 250
    or more starts in the trailing minute) or with pending empty, the turn
    returns without offering a write: the blob, and with it pending, is what
    it was. *)
Theorem closed_gate_no_write env w :
  ((Ceiling.MAX_CONCURRENCY <= length (processing (view_legacy (blob w))))%nat
   ∨ queue (view_legacy (blob w)) = [] ->
   idle_turn Ceiling.processNextTask env w) ∧
  ((RateLimit.RATE_LIMIT_REQUESTS
    <= length (in_window (now_at env (ticks w)) (starts (view (blob w)))))%nat
   ∨ queue (view (blob w)) = [] ->
   idle_turn RateLimit.processNextTask env w).
Proof.
  split; intros Hclosed; unfold idle_turn.
  - unfold Ceiling.processNextTask, Ceiling.startNext, bind at 1 2.
    rewrite getQueueState_legacy_run.
    destruct (decide _) as [Hfull|Hroom].
    + eexists. split; [reflexivity|]. world. tauto.
    + destruct Hclosed as [Hfull|Hempty]; [lia|]. rewrite Hempty.
      eexists. split; [reflexivity|]. world. tauto.
  - unfold RateLimit.processNextTask, RateLimit.startNext, bind at 1 2.
    rewrite getQueueState_run.
    destruct (queue (view (blob w))) as [|taskId rest] eqn:Hq.
    + eexists. split; [reflexivity|]. world. tauto.
    + destruct Hclosed as [Hfull|Hempty]; [|discriminate].
      unfold bind at 1, Date_now at 1. cbv beta iota.
      unfold bind at 1. rewrite history_view_run. world.
      destruct (decide _) as [_|Hroom]; [|unfold in_window in Hfull; lia].
      eexists. split; [reflexivity|]. world. tauto.
Qed.

Lemma closed_gate_no_write_witness :
  idle_turn Ceiling.processNextTask calm (fresh_world (Some six_in_flight)) ∧
  idle_turn Ceiling.processNextTask calm (fresh_world None) ∧
  idle_turn RateLimit.processNextTask calm (fresh_world (Some window_full)) ∧
  idle_turn RateLimit.processNextTask calm (fresh_world None).
Proof.
  repeat split.
  - apply (closed_gate_no_write calm (fresh_world (Some six_in_flight))).
    left. vm_compute. lia.
  - apply (closed_gate_no_write calm (fresh_world None)).
    right. reflexivity.
  - apply (closed_gate_no_write calm (fresh_world (Some window_full))).
    left. vm_compute. lia.
  - apply (closed_gate_no_write calm (fresh_world None)).
    right. reflexivity.
Defined.




(** ** The status projection *)

Lemma in_window_two_sided now (h : list Z) :
  Forall (λ timestamp, timestamp <= now) h ->
  in_window now h
  = filter (λ timestamp, now - 60000 < timestamp ∧ timestamp <= now) h.
Proof.
  intros Hpast. unfold in_window.
  induction h as [|t h IH]; [reflexivity|].
  apply Forall_cons in Hpast as [Ht Hpast].
  rewrite !filter_cons, (IH Hpast).
  destruct (decide (t > now - 60000)), (decide (now - 60000 < t ∧ t <= now));
    [reflexivity|lia|lia|reflexivity].
Qed.

Lemma foldl_min_spec (ts : list Z) (t : Z) :
  foldl Z.min t ts ∈ t :: ts ∧ ∀ x, x ∈ t :: ts → foldl Z.min t ts <= x.
Proof.
  revert t. induction ts as [|u ts IH]; intros t; simpl.
  - split; [left|]. intros x Hx. apply list_elem_of_singleton in Hx. lia.
  - destruct (IH (Z.min t u)) as [Hin Hle]. split.
    + apply elem_of_cons in Hin as [Heq|Hin].
      * rewrite Heq. destruct (Z.min_spec t u) as [[_ ->]|[_ ->]].
        -- left.
        -- right. left.
      * right. right. exact Hin.
    + intros x Hx.
      apply elem_of_cons in Hx as [->|Hx].
      * specialize (Hle (Z.min t u) ltac:(left)). lia.
      * apply elem_of_cons in Hx as [->|Hx].
        -- specialize (Hle (Z.min t u) ltac:(left)). lia.
        -- apply Hle. right. exact Hx.
Qed.

Lemma Math_min_spec (l : list Z) :
  match Math_min l with
  | None => l = []
  | Some m => m ∈ l ∧ ∀ x, x ∈ l → m <= x
  end.
Proof. destruct l as [|t ts]; [reflexivity|]. apply foldl_min_spec. Qed.

(** C6.  A GET on the status projection answers 200 with: used = the number
    of starts after now - 60000 (which, when no start is later than now, are
    the starts of the window from now - 60000, excluded, to now); remaining =
    max(0, 250 - used); resetAt = the least such start plus 60000 when there
    is one, null otherwise.  It offers no write and leaves the blob as it
    was. *)
Theorem status_rate_limit env w req :
  method req = "GET" ->
  let recent := in_window (now_at env (ticks w)) (starts (view (blob w))) in
  ∃ r w',
    queue_status req env w = (Done {| code := 200; body := Reported r |}, w') ∧
    used (rateLimit r) = length recent ∧
    (Forall (λ timestamp, timestamp <= now_at env (ticks w))
       (starts (view (blob w))) →
     recent = filter (λ timestamp, now_at env (ticks w) - 60000 < timestamp
                                   ∧ timestamp <= now_at env (ticks w))
                (starts (view (blob w)))) ∧
    remaining (rateLimit r) = Z.max 0 (250 - Z.of_nat (used (rateLimit r))) ∧
    match resetAt (rateLimit r) with
    | None => recent = []
    | Some reset =>
        ∃ earliest,
          reset = earliest + 60000 ∧ earliest ∈ recent ∧
          ∀ timestamp, timestamp ∈ recent → earliest <= timestamp
    end ∧
    blob w' = blob w ∧ puts w' = puts w ∧ commits w' = commits w.
Proof.
  intros Hget recent.
  unfold queue_status. rewrite Hget.
  destruct (decide _) as [Hne|_]; [contradiction|].
  unfold try_catch, bind at 1. rewrite getQueueState_run.
  unfold bind at 1, Date_now at 1. cbv beta iota.
  unfold bind at 1. rewrite history_view_run. world.
  unfold ret. do 2 eexists. split; [reflexivity|].
  cbn [rateLimit used remaining resetAt]. world.
  fold (in_window (now_at env (ticks w)) (starts (view (blob w)))).
  fold recent.
  split; [reflexivity|]. split; [apply in_window_two_sided|].
  split; [reflexivity|]. split; [|tauto].
  destruct (decide (0 < length (starts (view (blob w))))%nat) as [Hlog|Hlog].
  - destruct (decide (0 < length recent)%nat) as [Hsome|Hnone].
    + pose proof (Math_min_spec recent) as Hmin.
      destruct (Math_min recent) as [m|]; cbn [fmap option_fmap option_map].
      * exists m. tauto.
      * exact Hmin.
    + destruct recent; [reflexivity|simpl in Hnone; lia].
  - assert (Hempty : starts (view (blob w)) = []).
    { destruct (starts (view (blob w))); [reflexivity|simpl in Hlog; lia]. }
    unfold recent. rewrite Hempty. reflexivity.
Qed.

Lemma status_rate_limit_witness :
  ∃ r w',
    queue_status get_request calm (fresh_world (Some one_pending))
      = (Done {| code := 200; body := Reported r |}, w') ∧
    used (rateLimit r) = 1%nat ∧
    remaining (rateLimit r) = 249 ∧
    resetAt (rateLimit r) = Some 1700000030000.
Proof.
  destruct (status_rate_limit calm (fresh_world (Some one_pending))
              get_request eq_refl)
    as (r & w' & Hrun & _).
  exists r, w'. split; [exact Hrun|].
  vm_compute in Hrun. injection Hrun as <- <-. vm_compute. tauto.
Defined.

(** ** Clear *)

(** C9.  A POST on clear whose write the store takes answers 200 and leaves
    the empty state in the blob, whatever was there; any further clear,
    whether its write is taken or not, leaves that same blob. *)
Theorem clear_resets_idempotent env w req :
  method req = "POST" ->
  set_at env (length (puts w)) = None ->
  ∃ w1,
    clear_queue req env w = (Done {| code := 200; body := Cleared |}, w1) ∧
    blob w1 =
      Some {| queue := []; processing := []; completed := []; tasks := ∅;
              rateLimitHistory := Some [] |} ∧
    ∀ env2 req2, blob (clear_queue req2 env2 w1).2 = blob w1.
Proof.
  intros Hpost Hset.
  unfold clear_queue at 1. rewrite Hpost.
  destruct (decide _) as [Hne|_]; [contradiction|].
  unfold try_catch, bind, store_set. rewrite Hset.
  eexists. split; [reflexivity|]. world. split; [reflexivity|].
  intros env2 req2. unfold clear_queue.
  destruct (decide _) as [_|_]; [reflexivity|].
  unfold try_catch, bind, store_set. world.
  destruct (set_at env2 _); reflexivity.
Qed.

Lemma clear_resets_idempotent_witness :
  ∃ w1,
    clear_queue (post_request None) calm (fresh_world (Some six_in_flight))
      = (Done {| code := 200; body := Cleared |}, w1) ∧
    blob w1 = Some emptyState ∧
    blob (clear_queue (post_request None) calm w1).2 = Some emptyState.
Proof.
  destruct (clear_resets_idempotent calm (fresh_world (Some six_in_flight))
              (post_request None) eq_refl eq_refl)
    as (w1 & Hrun & Hblob & Hagain).
  exists w1. split; [exact Hrun|]. split; [exact Hblob|].
  rewrite Hagain. exact Hblob.
Defined.

(** ** Admission *)

Lemma body_data_run body env w :
  body ≠ JNull -> body_data body env w = (Done (data_member body), w).
Proof. destruct body; [contradiction|reflexivity..]. Qed.

Lemma body_data_null env w :
  body_data JNull env w
  = (Threw (ErrorObj "Cannot read properties of null (reading 'data')"), w).
Proof. reflexivity. Qed.

(** A successful run of the retry loop ends on the accepted write: the blob
    is the state the loop returns, which is some state it read plus the new
    identifier at the tail of pending and its record in [tasks]. *)
Lemma retry_loop_success fuel :
  ∀ retries taskId task state env w tid st w',
    id task = taskId ->
    Admission.retry_loop fuel retries taskId task state env w
      = (Done (tid, Some st, true), w') ->
    blob w' = Some st ∧
    ∃ st0 t,
      queue st = queue st0 ++ [tid] ∧
      tasks st = <[tid := t]> (tasks st0) ∧
      tasks st0 !! tid = None ∧
      processing st = processing st0 ∧
      completed st = completed st0 ∧
      id t = tid ∧ data t = data task ∧ status t = status task.
Proof.
  induction fuel as [|fuel IH];
    intros retries taskId task state env w tid st w' Hid Hrun.
  - destruct retries; simpl in Hrun; discriminate.
  - destruct retries as [|retries']; [simpl in Hrun; discriminate|].
    cbn [Admission.retry_loop] in Hrun.
    unfold bind at 1 in Hrun. rewrite getQueueState_legacy_run in Hrun.
    destruct (tasks (view_legacy (blob w)) !! taskId) as [found|] eqn:Hlook.
    + unfold bind at 1, mint_id at 1 in Hrun.
      eapply IH in Hrun; [|reflexivity].
      destruct Hrun as (Hblob & st0 & t & H). split; [exact Hblob|].
      exists st0, t. exact H.
    + unfold try_catch, bind at 1, saveQueueState, store_set in Hrun.
      destruct (set_at env (length (puts w))) as [e|].
      * unfold bind at 1 in Hrun.
        destruct (decide (0 < retries')%nat).
        -- unfold sleep at 1 in Hrun. eapply IH in Hrun; [|exact Hid].
           exact Hrun.
        -- unfold ret at 1 in Hrun. eapply IH in Hrun; [|exact Hid].
           exact Hrun.
      * unfold bind, ret in Hrun. injection Hrun as <- <- <-. world.
        split; [reflexivity|].
        exists (view_legacy (blob w)), task.
        cbn [queue tasks processing completed]. rewrite Hid. tauto.
Qed.

(** When the store rejects every write the loop offers and nobody else
    writes, the loop ends without success after exactly [retries] offers,
    given fuel for them and for the [c] collisions that may precede. *)
Lemma retry_loop_exhausted fuel :
  ∀ c retries taskId task state env w,
    quiet env ->
    (∀ k, (k < retries)%nat → set_at env (length (puts w) + k) ≠ None) ->
    fresh_after env (tasks (view_legacy (blob w))) c taskId (minted w) ->
    (retries + c <= fuel)%nat ->
    ∃ tid st w',
      Admission.retry_loop fuel retries taskId task state env w
        = (Done (tid, st, false), w') ∧
      blob w' = blob w ∧ commits w' = commits w ∧
      length (puts w') = (length (puts w) + retries)%nat.
Proof.
  induction fuel as [|fuel IH];
    intros c retries taskId task state env w Hquiet Hfail Hfresh Hfuel.
  - assert (retries = 0%nat) as -> by lia. simpl.
    do 3 eexists. split; [reflexivity|]. split; [|split]; [done..|lia].
  - destruct retries as [|retries'].
    { simpl. do 3 eexists. split; [reflexivity|].
      split; [|split]; [done..|lia]. }
    cbn [Admission.retry_loop].
    unfold bind at 1. rewrite getQueueState_legacy_run.
    destruct (tasks (view_legacy (blob w)) !! taskId) as [found|] eqn:Hlook.
    + destruct Hfresh as [Hnow Hlater].
      destruct c as [|c']; [rewrite Hnow in Hlook; [discriminate|done]|].
      unfold bind at 1, mint_id at 1.
      edestruct (IH c' (S retries') (id_at env (minted w))
                   (with_id task (id_at env (minted w)))
                   (Some (view_legacy (blob w))) env
                   {| blob := blob w; puts := puts w; commits := commits w;
                      ticks := ticks w; minted := S (minted w);
                      sends := sends w; naps := naps w;
                      console := console w |}) as (tid & st & w' & H);
        [exact Hquiet| | |lia|].
      * world. exact Hfail.
      * world. split.
        -- intros ->. specialize (Hlater 0%nat ltac:(lia)).
           rewrite Nat.add_0_r in Hlater. exact Hlater.
        -- intros n Hn. specialize (Hlater (S n) ltac:(lia)).
           replace (S (minted w) + n)%nat with (minted w + S n)%nat by lia.
           exact Hlater.
      * exists tid, st, w'. exact H.
    + unfold try_catch, bind at 1, saveQueueState, store_set.
      pose proof (Hfail 0%nat ltac:(lia)) as Hfirst.
      rewrite Nat.add_0_r in Hfirst.
      destruct (set_at env (length (puts w))) as [e|]; [|contradiction].
      unfold bind at 1.
      assert (Hnext : ∀ wn : World,
                blob wn = blob w -> commits wn = commits w ->
                minted wn = minted w ->
                length (puts wn) = S (length (puts w)) ->
                ∃ tid st w',
                  Admission.retry_loop fuel retries' taskId task
                    (Some
                       {| queue := queue (view_legacy (blob w)) ++ [taskId];
                          processing := processing (view_legacy (blob w));
                          completed := completed (view_legacy (blob w));
                          tasks := <[taskId := task]>
                                     (tasks (view_legacy (blob w)));
                          rateLimitHistory :=
                            rateLimitHistory (view_legacy (blob w)) |})
                    env wn
                    = (Done (tid, st, false), w') ∧
                  blob w' = blob w ∧ commits w' = commits w ∧
                  length (puts w') = (length (puts w) + S retries')%nat).
      { intros wn Hb Hc Hm Hp.
        edestruct (IH c retries' taskId task
                     (Some
                        {| queue := queue (view_legacy (blob w)) ++ [taskId];
                           processing := processing (view_legacy (blob w));
                           completed := completed (view_legacy (blob w));
                           tasks := <[taskId := task]>
                                      (tasks (view_legacy (blob w)));
                           rateLimitHistory :=
                             rateLimitHistory (view_legacy (blob w)) |})
                     env wn)
          as (tid & st & w' & Hrun & Hb' & Hc' & Hp');
          [exact Hquiet| | |lia|].
        - intros k Hk. rewrite Hp.
          replace (S (length (puts w)) + k)%nat
            with (length (puts w) + S k)%nat by lia.
          apply Hfail. lia.
        - rewrite Hb, Hm. exact Hfresh.
        - exists tid, st, w'. split; [exact Hrun|].
          rewrite Hb', Hc', Hp', Hb, Hc, Hp. split; [done|]. split; [done|].
          lia. }
      destruct (decide (0 < retries')%nat).
      * unfold sleep at 1.
        apply Hnext; world;
          [apply Hquiet|reflexivity..|rewrite length_app; simpl; lia].
      * unfold ret at 1.
        apply Hnext; world; [reflexivity..|rewrite length_app; simpl; lia].
Qed.

Lemma trigger_keeps_blob (guard : bool) env w :
  ∃ w',
    (if guard
     then try_catch send_wake (fun error => log (LogTriggerFailed error))
     else ret tt) env w = (Done tt, w') ∧
    blob w' = blob w ∧ puts w' = puts w ∧ commits w' = commits w.
Proof.
  destruct guard.
  - unfold try_catch, send_wake, log.
    destruct (send_at env (sends w)); eexists; (split; [reflexivity|]);
      world; tauto.
  - eexists. split; [reflexivity|]. tauto.
Qed.

(** C5.  When the store rejects the five writes admission offers (nobody
    else writing, and fuel for the five attempts and the collisions before
    them), the endpoint answers 500 with success false; no write was taken
    and the blob, hence pending and the task records, is what it was. *)
Theorem admission_exhausted env w fuel req c :
  method req = "POST" ->
  json req ≠ Some JNull ->
  (∀ k, (k < 5)%nat → set_at env (length (puts w) + k) ≠ None) ->
  quiet env ->
  (∀ n, (c <= n)%nat →
        tasks (view_legacy (blob w)) !! id_at env (minted w + n) = None) ->
  (5 + c <= fuel)%nat ->
  ∃ w',
    Admission.queue_task fuel req env w
      = (Done {| code := 500;
                 body := Refused "Failed to queue task after retries" |},
         w') ∧
    blob w' = blob w ∧ commits w' = commits w ∧
    length (puts w') = (length (puts w) + 5)%nat.
Proof.
  intros Hpost Hbody Hfail Hquiet Hfresh Hfuel.
  unfold Admission.queue_task. rewrite Hpost.
  destruct (decide _) as [Hne|_]; [contradiction|].
  unfold try_catch, bind at 1, mint_id at 1.
  unfold bind at 1, Date_now at 1. world.
  unfold bind at 1. rewrite body_data_run.
  2:{ destruct (json req) as [j|]; cbn; [|discriminate].
      intros ->. contradiction. }
  unfold bind at 1.
  edestruct (retry_loop_exhausted fuel c 5 (id_at env (minted w))
               {| id := id_at env (minted w); status := StQueued;
                  createdAt := now_at env (ticks w); startedAt := None;
                  completedAt := None;
                  data := Some (or_empty
                                  (data_member (default (JObj []) (json req))))
               |}
               None env
               {| blob := blob w; puts := puts w; commits := commits w;
                  ticks := S (ticks w); minted := S (minted w);
                  sends := sends w; naps := naps w; console := console w |})
    as (tid & st & w' & Hrun & Hblob & Hcommits & Hputs);
    [exact Hquiet|exact Hfail| |lia|].
  - world. split.
    + intros ->. specialize (Hfresh 0%nat ltac:(lia)).
      rewrite Nat.add_0_r in Hfresh. exact Hfresh.
    + intros n Hn. specialize (Hfresh (S n) ltac:(lia)).
      replace (S (minted w) + n)%nat with (minted w + S n)%nat by lia.
      exact Hfresh.
  - rewrite Hrun. world in Hblob. world in Hcommits. world in Hputs.
    destruct st; unfold throw, bind, log, ret; cbn [error_message];
      (eexists; split; [reflexivity|]); world; tauto.
Qed.

Lemma admission_exhausted_witness :
  ∃ w',
    Admission.queue_task 5 (post_request (Some (JObj [("data", JNum 7)])))
      store_down (fresh_world (Some one_pending))
      = (Done {| code := 500;
                 body := Refused "Failed to queue task after retries" |},
         w') ∧
    blob w' = Some one_pending ∧ length (puts w') = 5%nat.
Proof.
  destruct (admission_exhausted store_down (fresh_world (Some one_pending)) 5
              (post_request (Some (JObj [("data", JNum 7)]))) 0)
    as (w' & Hrun & Hblob & _ & Hputs).
  - reflexivity.
  - discriminate.
  - intros k _. discriminate.
  - intros n b. reflexivity.
  - intros n _. apply lookup_singleton_ne. cbn. discriminate.
  - lia.
  - exists w'. split; [exact Hrun|]. split; [exact Hblob|exact Hputs].
Defined.

Lemma status_lists env w req :
  method req = "GET" ->
  ∃ r w',
    queue_status req env w = (Done {| code := 200; body := Reported r |}, w') ∧
    r_queued r = resolve (view (blob w)) (queue (view (blob w))) ∧
    r_processing r = resolve (view (blob w)) (processing (view (blob w))) ∧
    r_completed r
      = resolve (view (blob w)) (last50 (completed (view (blob w)))) ∧
    blob w' = blob w.
Proof.
  intros Hget. unfold queue_status. rewrite Hget.
  destruct (decide _) as [Hne|_]; [contradiction|].
  unfold try_catch, bind at 1. rewrite getQueueState_run.
  unfold bind at 1, Date_now at 1. cbv beta iota.
  unfold bind at 1. rewrite history_view_run. world.
  unfold ret. do 2 eexists. split; [reflexivity|].
  cbn [r_queued r_processing r_completed]. world. tauto.
Qed.

(** What an accepted admission leaves behind: the blob holds the new
    identifier at the tail of pending, at the position the response reports,
    with a queued record carrying [body.data || {}]. *)
Lemma accepted_admission env w fuel req taskId position w1 :
  Admission.queue_task fuel req env w
    = (Done {| code := 200; body := Accepted taskId position |}, w1) ->
  ∃ st st0 t,
    blob w1 = Some st ∧
    queue st = queue st0 ++ [taskId] ∧
    position = length (queue st) ∧
    tasks st = <[taskId := t]> (tasks st0) ∧
    tasks st0 !! taskId = None ∧
    processing st = processing st0 ∧ completed st = completed st0 ∧
    id t = taskId ∧ status t = StQueued ∧
    data t = Some (or_empty (data_member (body_of req))).
Proof.
  unfold Admission.queue_task.
  destruct (decide _) as [_|_]; [discriminate|].
  unfold try_catch, bind at 1, mint_id at 1.
  unfold bind at 1, Date_now at 1. world.
  unfold bind at 1. fold (body_of req).
  assert (body_of req = JNull ∨ body_of req ≠ JNull) as [Hnull|Hbody]
    by (destruct (body_of req); auto).
  { rewrite Hnull, body_data_null. discriminate. }
  rewrite body_data_run by exact Hbody.
  unfold bind at 1.
  match goal with
  | |- context [Admission.retry_loop ?f ?n ?i ?t ?s ?e ?w0] =>
      destruct (Admission.retry_loop f n i t s e w0) as [res wl] eqn:Hloop
  end.
  destruct res as [[[tid st] success]|e|]; [|discriminate..].
  destruct st as [st|]; [|discriminate].
  destruct success; [|discriminate].
  apply retry_loop_success in Hloop; [|reflexivity].
  destruct Hloop as (Hblob & st0 & t & Hq & Ht & Hnew & Hp & Hc & Hid & Hd & Hs).
  unfold bind at 1.
  match goal with
  | |- context [decide ?P] => destruct (decide P) as [Hroom|Hfull]
  end.
  - destruct (trigger_keeps_blob true env wl) as (wt & Hrun & Hb & _).
    cbv beta iota in Hrun. unfold try_catch in Hrun. rewrite Hrun.
    unfold ret.
    intros [= <- <- <-]. exists st, st0, t. rewrite Hb. tauto.
  - unfold ret.
    intros [= <- <- <-]. exists st, st0, t. tauto.
Qed.

(** C7, as stated, fails: admitted with the payload [false], the task is
    reported with the payload [{}]. *)
Lemma falsy_payload_not_echoed :
  let req := post_request (Some (JObj [("data", JBool false)])) in
  let accepted := Admission.queue_task 5 req calm (fresh_world None) in
  let shown := queue_status get_request calm accepted.2 in
  accepted.1
    = Done {| code := 200; body := Accepted "task-1700000000000-0" 1 |} ∧
  ∃ r,
    shown.1 = Done {| code := 200; body := Reported r |} ∧
    (λ t, (id t, data t)) <$> r_queued r
      = [("task-1700000000000-0", Some (JObj []))] ∧
    ¬ ∃ t, t ∈ r_queued r ∧ id t = "task-1700000000000-0" ∧
           data t = Some (JBool false).
Proof.
  intros req accepted shown.
  split; [vm_compute; reflexivity|].
  eexists. split; [vm_compute; reflexivity|].
  cbn [r_queued]. split; [reflexivity|].
  intros (t & Hin & _ & Hdata).
  apply list_elem_of_singleton in Hin. subst t. discriminate.
Qed.

(** C7, amended.  After an accepted admission, a status read on the same
    blob lists in [queued] a task with the returned identifier whose payload
    is the request's [data] member when that member is truthy and the empty
    object otherwise; the returned position is the length of pending after
    the append and the identifier sits at that 1-based position. *)
Theorem accepted_task_is_reported env w fuel req taskId position w1 env2 :
  Admission.queue_task fuel req env w
    = (Done {| code := 200; body := Accepted taskId position |}, w1) ->
  ∃ r w2 t,
    queue_status get_request env2 w1
      = (Done {| code := 200; body := Reported r |}, w2) ∧
    t ∈ r_queued r ∧ id t = taskId ∧
    data t = Some (or_empty (data_member (body_of req))) ∧
    (∀ payload,
       data_member (body_of req) = Some payload → truthy payload = true →
       data t = Some payload) ∧
    position = length (queue (view (blob w1))) ∧
    queue (view (blob w1)) !! (position - 1)%nat = Some taskId.
Proof.
  intros Hrun. apply accepted_admission in Hrun.
  destruct Hrun
    as (st & st0 & t & Hblob & Hq & Hpos & Ht & _ & _ & _ & Hid & _ & Hd).
  destruct (status_lists env2 w1 get_request eq_refl)
    as (r & w2 & Hstatus & Hqueued & _).
  exists r, w2, t. split; [exact Hstatus|].
  rewrite Hqueued, view_legacy_queue, Hblob. cbn [view_legacy].
  split; [|split; [exact Hid|split; [exact Hd|split; [|split]]]].
  - unfold resolve. apply list_elem_of_omap. exists taskId. split.
    + rewrite Hq. apply elem_of_app. right. left.
    + rewrite view_legacy_tasks. cbn [view_legacy].
      rewrite Ht. apply lookup_insert_eq.
  - intros payload Hmember Htruthy. rewrite Hd, Hmember.
    cbn [or_empty]. rewrite Htruthy. reflexivity.
  - exact Hpos.
  - rewrite Hpos, Hq, length_app. cbn [length].
    replace (length (queue st0) + 1 - 1)%nat with (length (queue st0)) by lia.
    apply list_lookup_middle. reflexivity.
Qed.

Lemma accepted_task_is_reported_witness :
  ∃ r w2 t,
    queue_status get_request calm
      (Admission.queue_task 5
         (post_request (Some (JObj [("data", JStr "resize 640x480")])))
         calm (fresh_world (Some one_pending))).2
      = (Done {| code := 200; body := Reported r |}, w2) ∧
    t ∈ r_queued r ∧ id t = "task-1700000000000-0" ∧
    data t = Some (JStr "resize 640x480").
Proof.
  destruct (accepted_task_is_reported calm (fresh_world (Some one_pending)) 5
              (post_request (Some (JObj [("data", JStr "resize 640x480")])))
              "task-1700000000000-0" 2
              (Admission.queue_task 5
                 (post_request
                    (Some (JObj [("data", JStr "resize 640x480")])))
                 calm (fresh_world (Some one_pending))).2
              calm)
    as (r & w2 & t & Hstatus & Hin & Hid & Hdata & _).
  - vm_compute. reflexivity.
  - exists r, w2, t. split; [exact Hstatus|]. split; [exact Hin|].
    split; [exact Hid|exact Hdata].
Defined.

(** A body other than [null] is accepted when the identifier is new and the
    store takes the first write. *)
Lemma admission_accepts env w fuel req :
  method req = "POST" ->
  body_of req ≠ JNull ->
  tasks (view_legacy (blob w)) !! id_at env (minted w) = None ->
  set_at env (length (puts w)) = None ->
  ∃ w1,
    Admission.queue_task (S fuel) req env w
      = (Done {| code := 200;
                 body := Accepted (id_at env (minted w))
                           (length (queue (view_legacy (blob w))) + 1) |},
         w1).
Proof.
  intros Hpost Hbody Hfresh Hset.
  unfold Admission.queue_task. rewrite Hpost.
  destruct (decide _) as [Hne|_]; [contradiction|].
  unfold try_catch at 1, bind at 1, mint_id at 1.
  unfold bind at 1, Date_now at 1. world.
  unfold bind at 1. fold (body_of req). rewrite body_data_run by exact Hbody.
  unfold bind at 1. cbn [Admission.retry_loop].
  unfold bind at 1. rewrite getQueueState_legacy_run. world.
  rewrite Hfresh.
  unfold try_catch at 1, bind at 1, saveQueueState, store_set. world.
  rewrite Hset. unfold bind at 1, ret at 1.
  unfold bind at 1. cbn [processing queue].
  match goal with
  | |- context [decide ?P] => destruct (decide P) as [Hroom|Hfull]
  end.
  - match goal with
    | |- context [try_catch send_wake ?h env ?w0] =>
        destruct (trigger_keeps_blob true env w0) as (wt & Hrun & _)
    end.
    cbv beta iota in Hrun. rewrite Hrun. unfold ret.
    rewrite length_app. eexists. reflexivity.
  - unfold ret. rewrite length_app. eexists. reflexivity.
Qed.

(** A missing or falsy [data] member, on any body but [null], gives the
    empty-object payload. *)
Lemma payload_defaults body :
  body ≠ JNull ->
  data_member body = None ∨
    (∃ j, data_member body = Some j ∧ truthy j = false) ->
  ∀ env w,
    (d <- body_data body ;; ret (or_empty d)) env w = (Done (JObj []), w).
Proof.
  intros Hbody Hfalsy env w. unfold bind. rewrite body_data_run by exact Hbody.
  destruct Hfalsy as [->|(j & -> & Hj)]; [reflexivity|].
  unfold ret, or_empty. rewrite Hj. reflexivity.
Qed.

(** C10: the parsed body [null].  It has no [data] member, yet admission
    answers 500 and queues nothing. *)
Theorem null_body_is_refused :
  let run :=
    Admission.queue_task 5 (post_request (Some JNull)) calm
      (fresh_world (Some one_pending)) in
  data_member (body_of (post_request (Some JNull))) = None ∧
  run.1 = Done {| code := 500;
                  body := Refused
                    "Cannot read properties of null (reading 'data')" |} ∧
  blob run.2 = Some one_pending ∧ puts run.2 = [].
Proof.
  split; [reflexivity|]. split; [vm_compute; reflexivity|].
  split; reflexivity.
Qed.

(** A missing or falsy [data] member on a body other than [null]: the task
    is stored with the payload [{}] and admission answers 200. *)
Lemma falsy_payload_accepted_empty env w fuel req :
  method req = "POST" ->
  body_of req ≠ JNull ->
  data_member (body_of req) = None ∨
    (∃ j, data_member (body_of req) = Some j ∧ truthy j = false) ->
  tasks (view_legacy (blob w)) !! id_at env (minted w) = None ->
  set_at env (length (puts w)) = None ->
  ∃ position w1 st t,
    Admission.queue_task (S fuel) req env w
      = (Done {| code := 200;
                 body := Accepted (id_at env (minted w)) position |}, w1) ∧
    blob w1 = Some st ∧
    tasks st !! id_at env (minted w) = Some t ∧
    data t = Some (JObj []).
Proof.
  intros Hpost Hbody Hfalsy Hfresh Hset.
  destruct (admission_accepts env w fuel req Hpost Hbody Hfresh Hset)
    as (w1 & Hrun).
  destruct (accepted_admission _ _ _ _ _ _ _ Hrun)
    as (st & st0 & t & Hblob & _ & _ & Ht & _ & _ & _ & _ & _ & Hd).
  exists (length (queue (view_legacy (blob w))) + 1)%nat, w1, st, t.
  split; [exact Hrun|]. split; [exact Hblob|]. split.
  - rewrite Ht. apply lookup_insert_eq.
  - rewrite Hd. f_equal.
    destruct Hfalsy as [->|(j & -> & Hj)]; [reflexivity|].
    unfold or_empty. rewrite Hj. reflexivity.
Qed.

(** ** Writes of the dispatcher are offered once *)

(** A rejected start-claim write ends the turn at once: one write offered,
    no back-off, nothing persisted. *)
Lemma start_write_not_retried env w taskId rest task e :
  queue (view (blob w)) = taskId :: rest ->
  (length (in_window (now_at env (ticks w)) (starts (view (blob w))))
   < RateLimit.RATE_LIMIT_REQUESTS)%nat ->
  tasks (view (blob w)) !! taskId = Some task ->
  set_at env (length (puts w)) = Some e ->
  ∃ w',
    RateLimit.processNextTask env w = (Threw e, w') ∧
    blob w' = blob w ∧ length (puts w') = S (length (puts w)) ∧
    naps w' = naps w.
Proof.
  intros Hq Hr Ht Hs.
  unfold RateLimit.processNextTask, RateLimit.startNext, bind at 1 2.
  rewrite getQueueState_run, Hq.
  unfold bind at 1, Date_now at 1. cbv beta iota.
  unfold bind at 1. rewrite history_view_run. world.
  destruct (decide _) as [Hge|_]; [unfold in_window in Hr; lia|].
  rewrite Ht.
  unfold bind, Date_now, saveQueueState, store_set. world.
  rewrite Hs. eexists. split; [reflexivity|]. world.
  rewrite length_app. simpl. split; [done|]. split; [lia|done].
Qed.

(** A rejected completion write ends the turn at once as well. *)
Lemma finish_write_not_retried env w taskId e :
  set_at env (length (puts w)) = Some e ->
  ∃ w',
    RateLimit.finish taskId env w = (Threw e, w') ∧
    blob w' = blob w ∧ length (puts w') = S (length (puts w)) ∧
    naps w' = naps w.
Proof.
  intros Hs. unfold RateLimit.finish, bind at 1.
  rewrite getQueueState_run.
  destruct (tasks (view (blob w)) !! taskId) as [task|].
  - unfold bind, Date_now, ret, saveQueueState, store_set. world.
    rewrite Hs. eexists. split; [reflexivity|]. world.
    rewrite length_app. simpl. split; [done|]. split; [lia|done].
  - unfold bind, ret, saveQueueState, store_set. world.
    rewrite Hs. eexists. split; [reflexivity|]. world.
    rewrite length_app. simpl. split; [done|]. split; [lia|done].
Qed.

(** C3: the store rejects the first write and would take the second.
    Admission backs off once and is accepted on its second offer; the
    dispatcher's start-claim and its completion each throw after a single
    offer, without backing off, and persist nothing. *)
Theorem dispatcher_write_not_retried :
  let admission :=
    Admission.queue_task 5 (post_request None) first_write_lost
      (fresh_world (Some one_pending)) in
  let turn :=
    RateLimit.processNextTask first_write_lost
      (fresh_world (Some one_pending)) in
  let completion :=
    RateLimit.finish "task-a" first_write_lost
      (fresh_world (Some one_started)) in
  (admission.1
     = Done {| code := 200; body := Accepted "task-1700000000000-0" 2 |} ∧
   length (puts admission.2) = 2%nat ∧ naps admission.2 = 1%nat) ∧
  (turn.1 = Threw (ErrorObj "blob store unavailable") ∧
   length (puts turn.2) = 1%nat ∧ naps turn.2 = 0%nat ∧
   blob turn.2 = Some one_pending) ∧
  (completion.1 = Threw (ErrorObj "blob store unavailable") ∧
   length (puts completion.2) = 1%nat ∧ naps completion.2 = 0%nat ∧
   blob completion.2 = Some one_started).
Proof.
  split; [|split].
  - vm_compute. tauto.
  - split; [vm_compute; reflexivity|]. split; [vm_compute; reflexivity|].
    split; [vm_compute; reflexivity|]. reflexivity.
  - split; [vm_compute; reflexivity|]. split; [vm_compute; reflexivity|].
    split; [vm_compute; reflexivity|]. reflexivity.
Qed.

(** The retry of the rate-limit era admission writes back the history it
    read before the loop: the start a dispatcher recorded during the
    back-off is gone from the blob, and the entry that dispatcher had pruned
    is back. *)
Lemma stale_history_written_back :
  let admission :=
    AdmissionRL.queue_task 5 (post_request None) dispatcher_between
      (fresh_world (Some one_pending)) in
  admission.1
    = Done {| code := 200; body := Accepted "task-1700000000000-0" 1 |} ∧
  (processing <$> blob admission.2) = Some ["task-a"] ∧
  starts one_started = [1699999970000; 1700000000002] ∧
  (starts <$> blob admission.2) = Some [1699992800000; 1699999970000].
Proof. vm_compute. tauto. Qed.

(** ** The consistency invariant *)

Lemma strict_consistent s : consistent_strict s -> consistent s.
Proof.
  intros [Hrec Hnodup]. split; [exact Hrec|].
  unfold listed in Hnodup.
  apply NoDup_app in Hnodup as (_ & Hq & Hpc).
  apply NoDup_app in Hpc as (_ & Hp & _).
  intros i. split; [|split].
  - intros [Hiq Hip]. apply (Hq i Hiq). apply elem_of_app. left. exact Hip.
  - intros [Hiq Hic]. apply (Hq i Hiq). apply elem_of_app. right. exact Hic.
  - intros [Hip Hic]. exact (Hp i Hip Hic).
Qed.

Lemma consistent_strict_perm s s' :
  listed s' ≡ₚ listed s ->
  (∀ i, is_Some (tasks s !! i) → is_Some (tasks s' !! i)) ->
  consistent_strict s -> consistent_strict s'.
Proof.
  intros Hperm Hdom [Hrec Hnodup]. split.
  - unfold recorded in *. rewrite Hperm.
    eapply Forall_impl; [exact Hrec|]. exact Hdom.
  - rewrite Hperm. exact Hnodup.
Qed.

Lemma consistent_blob_view b : consistent_strict (view b) ↔ consistent_blob b.
Proof.
  unfold consistent_blob.
  split; apply consistent_strict_perm; unfold listed;
    rewrite ?view_legacy_queue, ?view_legacy_processing,
      ?view_legacy_completed, ?view_legacy_tasks; auto.
Qed.

Lemma splice_first_perm x l : x ∈ l -> l ≡ₚ x :: splice_first x l.
Proof.
  induction l as [|y l IH]; intros Hin; [inversion Hin|].
  simpl. destruct (decide (y = x)) as [->|Hne]; [reflexivity|].
  apply elem_of_cons in Hin as [->|Hin]; [contradiction|].
  rewrite (IH Hin) at 1. apply Permutation_swap.
Qed.

Lemma insert_keeps_records (m : gmap string Task) k v i :
  is_Some (m !! i) -> is_Some (<[k := v]> m !! i).
Proof. intros Hi. apply lookup_insert_is_Some'. right. exact Hi. Qed.

(** Admission's mutation. *)
Lemma append_keeps s taskId task h :
  consistent_strict s ->
  tasks s !! taskId = None ->
  consistent_strict
    {| queue := queue s ++ [taskId]; processing := processing s;
       completed := completed s; tasks := <[taskId := task]> (tasks s);
       rateLimitHistory := h |}.
Proof.
  intros [Hrec Hnodup] Hnew.
  assert (Hperm : (queue s ++ [taskId]) ++ processing s ++ completed s
                  ≡ₚ taskId :: listed s).
  { unfold listed. rewrite <- app_assoc. simpl.
    symmetry. apply Permutation_middle. }
  split.
  - unfold recorded, listed. cbn [queue processing completed tasks].
    rewrite Hperm. apply Forall_cons. split.
    + rewrite lookup_insert_eq. eauto.
    + eapply Forall_impl; [exact Hrec|]. intros i.
      apply insert_keeps_records.
  - unfold listed. cbn [queue processing completed]. rewrite Hperm.
    apply NoDup_cons. split; [|exact Hnodup].
    intros Hin. unfold recorded in Hrec.
    rewrite Forall_forall in Hrec. apply Hrec in Hin.
    rewrite Hnew in Hin. destruct Hin as [? [=]].
Qed.

(** The start-claim's mutation. *)
Lemma claim_keeps s taskId rest task h :
  consistent_strict s ->
  queue s = taskId :: rest ->
  consistent_strict
    {| queue := rest; processing := processing s ++ [taskId];
       completed := completed s; tasks := <[taskId := task]> (tasks s);
       rateLimitHistory := h |}.
Proof.
  intros Hs Hq. eapply consistent_strict_perm; [| |exact Hs].
  - unfold listed. cbn [queue processing completed]. rewrite Hq.
    rewrite <- (app_assoc (processing s)). simpl.
    rewrite (app_assoc rest). rewrite <- Permutation_middle.
    rewrite <- app_assoc. reflexivity.
  - intros i. cbn [tasks]. apply insert_keeps_records.
Qed.

(** The completion's mutation, for a task that is listed in flight. *)
Lemma complete_keeps s taskId task h :
  consistent_strict s ->
  taskId ∈ processing s ->
  consistent_strict
    {| queue := queue s;
       processing := splice_first taskId (processing s);
       completed := completed s ++ [taskId];
       tasks := <[taskId := task]> (tasks s);
       rateLimitHistory := h |}.
Proof.
  intros Hs Hin. eapply consistent_strict_perm; [| |exact Hs].
  - unfold listed. cbn [queue processing completed].
    rewrite (splice_first_perm taskId (processing s) Hin) at 2.
    apply Permutation_app_head. simpl.
    rewrite app_assoc. symmetry. apply Permutation_cons_append.
  - intros i. cbn [tasks]. apply insert_keeps_records.
Qed.

Lemma empty_consistent : consistent_strict emptyState.
Proof. split; [apply Forall_nil_2|apply NoDup_nil_2]. Qed.

Section Closure.
Context {A B : Type}.

Lemma keeps_ret (a : A) : keeps_blob (ret a).
Proof. intros env w. reflexivity. Qed.

Lemma keeps_throw (e : Thrown) : keeps_blob (@throw A e).
Proof. intros env w. reflexivity. Qed.

Lemma keeps_bind (c : M A) (k : A -> M B) :
  keeps_blob c -> (∀ a, keeps_blob (k a)) -> keeps_blob (bind c k).
Proof.
  intros Hc Hk env w. unfold bind. specialize (Hc env w).
  destruct (c env w) as [[a|e|] w1]; cbn [snd] in *; [|exact Hc..].
  rewrite Hk. exact Hc.
Qed.

Lemma keeps_try (c : M A) (h : Thrown -> M A) :
  keeps_blob c -> (∀ e, keeps_blob (h e)) -> keeps_blob (try_catch c h).
Proof.
  intros Hc Hh env w. unfold try_catch. specialize (Hc env w).
  destruct (c env w) as [[a|e|] w1]; cbn [snd] in *; [exact Hc| |exact Hc].
  rewrite Hh. exact Hc.
Qed.

Lemma consistency_of_keeps env (c : M A) :
  keeps_blob c -> keeps_consistency env c.
Proof. intros Hc w Hw. rewrite Hc. exact Hw. Qed.

Lemma consistency_bind env (c : M A) (k : A -> M B) :
  keeps_consistency env c -> (∀ a, keeps_consistency env (k a)) ->
  keeps_consistency env (bind c k).
Proof.
  intros Hc Hk w Hw. unfold bind. specialize (Hc w Hw).
  destruct (c env w) as [[a|e|] w1]; cbn [snd] in *; [|exact Hc..].
  apply Hk. exact Hc.
Qed.

Lemma consistency_try env (c : M A) (h : Thrown -> M A) :
  keeps_consistency env c -> (∀ e, keeps_consistency env (h e)) ->
  keeps_consistency env (try_catch c h).
Proof.
  intros Hc Hh w Hw. unfold try_catch. specialize (Hc w Hw).
  destruct (c env w) as [[a|e|] w1]; cbn [snd] in *; [exact Hc| |exact Hc].
  apply Hh. exact Hc.
Qed.

(** The continuation of a read only ever sees a consistent state. *)
Lemma consistency_read env (k : QueueState -> M B) :
  (∀ state, consistent_strict state → keeps_consistency env (k state)) ->
  keeps_consistency env (bind getQueueState k).
Proof.
  intros Hk w Hw. unfold bind. rewrite getQueueState_run.
  apply Hk; [|exact Hw]. apply consistent_blob_view. exact Hw.
Qed.

Lemma consistency_read_legacy env (k : QueueState -> M B) :
  (∀ state, consistent_strict state → keeps_consistency env (k state)) ->
  keeps_consistency env (bind getQueueState_legacy k).
Proof.
  intros Hk w Hw. unfold bind. rewrite getQueueState_legacy_run.
  apply Hk; exact Hw.
Qed.
End Closure.

Lemma keeps_log ev : keeps_blob (log ev).
Proof. intros env w. reflexivity. Qed.

Lemma keeps_now : keeps_blob Date_now.
Proof. intros env w. reflexivity. Qed.

Lemma keeps_mint : keeps_blob mint_id.
Proof. intros env w. reflexivity. Qed.

Lemma keeps_send : keeps_blob send_wake.
Proof. intros env w. unfold send_wake. destruct (send_at _ _); reflexivity. Qed.

Lemma keeps_body_data body : keeps_blob (body_data body).
Proof. intros env w. destruct body; reflexivity. Qed.

Lemma keeps_history state : keeps_blob (history state).
Proof.
  intros env w. unfold history. destruct (rateLimitHistory state); reflexivity.
Qed.

Lemma consistency_sleep env : others_consistent env -> keeps_consistency env sleep.
Proof. intros Hrely w Hw. apply Hrely. exact Hw. Qed.

Lemma consistency_save env state :
  consistent_strict state -> keeps_consistency env (saveQueueState state).
Proof.
  intros Hs w Hw. unfold saveQueueState, store_set.
  destruct (set_at env (length (puts w))); [exact Hw|exact Hs].
Qed.

Create HintDb blob.

#[local] Hint Resolve keeps_ret keeps_throw keeps_log keeps_now keeps_mint
  keeps_send keeps_body_data keeps_history : blob.

Ltac blob_kept :=
  repeat first
    [ apply consistency_of_keeps
    | apply keeps_bind; [|intros ?]
    | apply keeps_try; [|intros ?]
    | solve [auto with blob] ].

Lemma retry_loop_keeps env fuel :
  others_consistent env ->
  ∀ retries taskId task state,
    keeps_consistency env
      (Admission.retry_loop fuel retries taskId task state).
Proof.
  intros Hrely. induction fuel as [|fuel IH]; intros retries taskId task state.
  - destruct retries; intros w Hw; exact Hw.
  - destruct retries as [|retries']; [intros w Hw; exact Hw|].
    cbn [Admission.retry_loop].
    apply consistency_read_legacy. intros st Hst.
    destruct (tasks st !! taskId) as [found|] eqn:Hlook.
    + apply consistency_bind; [blob_kept|intros taskId']. apply IH.
    + apply consistency_try.
      * apply consistency_bind; [|intros ?; blob_kept].
        apply consistency_save. apply append_keeps; assumption.
      * intros e. apply consistency_bind; [|intros ?; apply IH].
        destruct (decide _); [apply consistency_sleep; exact Hrely|blob_kept].
Qed.

Lemma queue_task_keeps env fuel req :
  others_consistent env ->
  keeps_consistency env (Admission.queue_task fuel req).
Proof.
  intros Hrely. unfold Admission.queue_task.
  destruct (decide _); [blob_kept|].
  apply consistency_try; [|intros e; blob_kept].
  apply consistency_bind; [blob_kept|intros taskId].
  apply consistency_bind; [blob_kept|intros created].
  apply consistency_bind; [blob_kept|intros d].
  apply consistency_bind; [apply retry_loop_keeps; exact Hrely|].
  intros [[tid st] success].
  destruct st as [st|]; [|blob_kept]. destruct success; [|blob_kept].
  destruct (decide _); blob_kept.
Qed.

Lemma startNext_keeps env : keeps_consistency env RateLimit.startNext.
Proof.
  unfold RateLimit.startNext.
  apply consistency_read. intros state Hstate.
  destruct (queue state) as [|taskId rest] eqn:Hq; [blob_kept|].
  apply consistency_bind; [blob_kept|intros now].
  apply consistency_bind; [blob_kept|intros h].
  destruct (decide _); [blob_kept|].
  destruct (tasks state !! taskId) as [task|]; [|blob_kept].
  apply consistency_bind; [blob_kept|intros started].
  apply consistency_bind; [blob_kept|intros pushed].
  apply consistency_bind; [blob_kept|intros pruneNow].
  apply consistency_bind; [|intros ?; blob_kept].
  apply consistency_save. apply claim_keeps; assumption.
Qed.

Lemma finish_keeps env w taskId :
  consistent_blob (blob w) ->
  taskId ∈ processing (view (blob w)) ->
  consistent_blob (blob (RateLimit.finish taskId env w).2).
Proof.
  intros Hw Hin.
  assert (Hview : consistent_strict (view (blob w)))
    by (apply consistent_blob_view; exact Hw).
  unfold RateLimit.finish, bind at 1. rewrite getQueueState_run.
  destruct (tasks (view (blob w)) !! taskId) as [task|] eqn:Htask.
  - unfold bind at 1, bind at 1, Date_now at 1, ret at 1.
    match goal with
    | |- consistent_blob (blob (?c env ?w0).2) =>
        cut (keeps_consistency env c); [intros Hk; apply Hk; exact Hw|]
    end.
    apply consistency_bind;
      [apply consistency_save; apply complete_keeps; assumption|intros ?].
    apply consistency_bind; [blob_kept|intros ?].
    apply consistency_read. intros finalState _.
    destruct (decide _); [|blob_kept].
    apply consistency_bind; [blob_kept|intros finalNow].
    apply consistency_bind; [blob_kept|intros h].
    destruct (decide _); blob_kept.
  - destruct Hview as [Hrec _]. unfold recorded, listed in Hrec.
    rewrite Forall_forall in Hrec.
    destruct (Hrec taskId) as [task Hsome].
    { apply elem_of_app. right. apply elem_of_app. left. exact Hin. }
    rewrite Htask in Hsome. discriminate.
Qed.

Lemma clear_queue_keeps env req : keeps_consistency env (clear_queue req).
Proof.
  unfold clear_queue. destruct (decide _); [blob_kept|].
  apply consistency_try; [|intros e; blob_kept].
  apply consistency_bind; [|intros ?; blob_kept].
  apply (consistency_save env emptyState). exact empty_consistent.
Qed.

Ltac decide_now :=
  unfold recorded, listed; refine (bool_decide_unpack _ _); vm_compute;
  exact I.

Lemma claim_overwritten_consistent : consistent_strict claim_overwritten.
Proof. split; decide_now. Qed.

Lemma one_pending_consistent : consistent_strict one_pending.
Proof. split; decide_now. Qed.

Lemma one_started_consistent : consistent_strict one_started.
Proof. split; decide_now. Qed.

(** C4, as stated, fails for the completion: on a consistent state in which
    the completing task is pending again and no longer in flight, it leaves
    the task both pending and completed. *)
Lemma completion_breaks_exclusive :
  let after :=
    RateLimit.finish "task-a" calm (fresh_world (Some claim_overwritten)) in
  consistent claim_overwritten ∧
  after.1 = Done tt ∧
  (queue <$> blob after.2) = Some ["task-a"; "task-b"] ∧
  (completed <$> blob after.2) = Some ["task-a"] ∧
  ∀ s, blob after.2 = Some s → ¬ consistent s.
Proof.
  intros after.
  assert (Hq : (queue <$> blob after.2) = Some ["task-a"; "task-b"])
    by (vm_compute; reflexivity).
  assert (Hc : (completed <$> blob after.2) = Some ["task-a"])
    by (vm_compute; reflexivity).
  split; [apply strict_consistent, claim_overwritten_consistent|].
  split; [vm_compute; reflexivity|].
  split; [exact Hq|]. split; [exact Hc|].
  intros s Hs [_ Hex]. rewrite Hs in Hq, Hc.
  injection Hq as Hq. injection Hc as Hc.
  destruct (Hex "task-a") as (_ & Hqc & _). apply Hqc.
  rewrite Hq, Hc. split; [left|left].
Qed.

(** How the completion meets such a state: the turn claims task-a, and while
    the task runs an admission that had read the blob before the claim saves
    its snapshot over it.  Every blob the turn reads is consistent; the one
    it leaves is not. *)
Lemma overwritten_claim_scenario :
  let turn :=
    RateLimit.processNextTask admission_between
      (fresh_world (Some one_pending)) in
  consistent_strict one_pending ∧
  others_consistent admission_between ∧
  turn.1 = Done tt ∧
  (queue <$> blob turn.2) = Some ["task-a"; "task-b"] ∧
  (processing <$> blob turn.2) = Some [] ∧
  (completed <$> blob turn.2) = Some ["task-a"].
Proof.
  split; [exact one_pending_consistent|]. split.
  - intros [|n] b Hb; [exact claim_overwritten_consistent|exact Hb].
  - vm_compute. tauto.
Qed.

(** C4, amended.  Reading the invariant as: every listed identifier has a
    task record and no identifier occurs twice in pending, in-flight and
    completed taken together.  When the writes of the other actors keep it,
    admission, the start-claim and clear keep it, and so does the completion
    of a task that the state it reads lists in flight. *)
Theorem operations_keep_consistency env w fuel req taskId :
  others_consistent env ->
  consistent_blob (blob w) ->
  consistent_blob (blob (Admission.queue_task fuel req env w).2) ∧
  consistent_blob (blob (RateLimit.startNext env w).2) ∧
  (taskId ∈ processing (view (blob w)) →
   consistent_blob (blob (RateLimit.finish taskId env w).2)) ∧
  consistent_blob (blob (clear_queue req env w).2).
Proof.
  intros Hrely Hw. split; [|split; [|split]].
  - apply queue_task_keeps; assumption.
  - apply startNext_keeps; assumption.
  - intros Hin. apply finish_keeps; assumption.
  - apply clear_queue_keeps; assumption.
Qed.

Lemma operations_keep_consistency_witness :
  consistent_blob
    (blob (Admission.queue_task 5 (post_request None) calm
             (fresh_world (Some one_started))).2) ∧
  consistent_blob
    (blob (RateLimit.finish "task-a" calm
             (fresh_world (Some one_started))).2).
Proof.
  destruct (operations_keep_consistency calm (fresh_world (Some one_started))
              5 (post_request None) "task-a")
    as (Hqueued & _ & Hfinish & _).
  - intros n b Hb. exact Hb.
  - exact one_started_consistent.
  - split; [exact Hqueued|]. apply Hfinish. left.
Defined.

(** * Further properties *)

(** ** Keeping a property of the blob *)

Section Preserving.
Context {A B : Type} (P : option QueueState → Prop) (env : Env).

Lemma preserves_of_keeps (c : M A) : keeps_blob c -> preserves P env c.
Proof. intros Hc w Hw. rewrite Hc. exact Hw. Qed.

Lemma preserves_bind (c : M A) (k : A -> M B) :
  preserves P env c -> (∀ a, preserves P env (k a)) ->
  preserves P env (bind c k).
Proof.
  intros Hc Hk w Hw. unfold bind. specialize (Hc w Hw).
  destruct (c env w) as [[a|e|] w1]; cbn [snd] in *; [|exact Hc..].
  apply Hk. exact Hc.
Qed.

Lemma preserves_try (c : M A) (h : Thrown -> M A) :
  preserves P env c -> (∀ e, preserves P env (h e)) ->
  preserves P env (try_catch c h).
Proof.
  intros Hc Hh w Hw. unfold try_catch. specialize (Hc w Hw).
  destruct (c env w) as [[a|e|] w1]; cbn [snd] in *; [exact Hc| |exact Hc].
  apply Hh. exact Hc.
Qed.

(** The continuation of a read sees a state whose blob has [P]. *)
Lemma preserves_read_legacy (k : QueueState -> M B) :
  (∀ b, P b → preserves P env (k (view_legacy b))) ->
  preserves P env (bind getQueueState_legacy k).
Proof.
  intros Hk w Hw. unfold bind. rewrite getQueueState_legacy_run.
  apply Hk; exact Hw.
Qed.

Lemma preserves_read (k : QueueState -> M B) :
  (∀ b, P b → preserves P env (k (view b))) ->
  preserves P env (bind getQueueState k).
Proof.
  intros Hk w Hw. unfold bind. rewrite getQueueState_run.
  apply Hk; exact Hw.
Qed.
End Preserving.

Lemma preserves_sleep P env : others_preserve P env -> preserves P env sleep.
Proof. intros Hrely w Hw. apply Hrely. exact Hw. Qed.

Lemma preserves_save P env state :
  P (Some state) -> preserves P env (saveQueueState state).
Proof.
  intros Hs w Hw. unfold saveQueueState, store_set.
  destruct (set_at env (length (puts w))); [exact Hw|exact Hs].
Qed.

Lemma keeps_getQueueState : keeps_blob getQueueState.
Proof. intros env w. rewrite getQueueState_run. reflexivity. Qed.

Lemma keeps_getQueueState_legacy : keeps_blob getQueueState_legacy.
Proof. intros env w. rewrite getQueueState_legacy_run. reflexivity. Qed.

#[local] Hint Resolve keeps_getQueueState keeps_getQueueState_legacy : blob.

Ltac kept :=
  repeat first
    [ apply preserves_of_keeps
    | apply keeps_bind; [|intros ?]
    | apply keeps_try; [|intros ?]
    | solve [auto with blob]
    | match goal with
      | |- keeps_blob (if ?g then _ else _) => destruct g
      | |- keeps_blob (match ?o with Some _ => _ | None => _ end) =>
          destruct o
      end ].

Lemma splice_first_length x l :
  (length (splice_first x l) <= length l)%nat.
Proof.
  induction l as [|y l IH]; [reflexivity|].
  simpl. destruct (decide (y = x)); simpl; lia.
Qed.

Lemma splice_first_absent x l : x ∉ l -> splice_first x l = l.
Proof.
  induction l as [|y l IH]; intros Hx; [reflexivity|].
  apply not_elem_of_cons in Hx as [Hne Hx].
  simpl. destruct (decide (y = x)) as [->|_]; [contradiction|].
  rewrite (IH Hx). reflexivity.
Qed.

Lemma splice_first_appended x l : x ∉ l -> splice_first x (l ++ [x]) = l.
Proof.
  induction l as [|y l IH]; intros Hx; simpl.
  - destruct (decide (x = x)); [reflexivity|contradiction].
  - apply not_elem_of_cons in Hx as [Hne Hx].
    destruct (decide (y = x)) as [->|_]; [contradiction|].
    rewrite (IH Hx). reflexivity.
Qed.

(** ** The concurrency dispatcher *)

(** The start phase of the concurrency variant on a store that takes the
    write. *)
Lemma ceiling_startNext_accepted env w taskId rest task :
  (length (processing (view_legacy (blob w))) < Ceiling.MAX_CONCURRENCY)%nat ->
  queue (view_legacy (blob w)) = taskId :: rest ->
  tasks (view_legacy (blob w)) !! taskId = Some task ->
  set_at env (length (puts w)) = None ->
  let state := view_legacy (blob w) in
  let claimed :=
    {| queue := rest;
       processing := processing state ++ [taskId];
       completed := completed state;
       tasks :=
         <[taskId :=
             {| id := id task; status := StProcessing;
                createdAt := createdAt task;
                startedAt := Some (now_at env (ticks w));
                completedAt := completedAt task; data := data task |}]>
           (tasks state);
       rateLimitHistory := rateLimitHistory state |} in
  ∃ w',
    Ceiling.startNext env w = (Done (Some taskId), w') ∧
    blob w' = Some claimed ∧ puts w' = puts w ++ [claimed].
Proof.
  intros Hroom Hq Ht Hs state claimed.
  unfold Ceiling.startNext, bind at 1. rewrite getQueueState_legacy_run.
  destruct (decide _) as [Hfull|_]; [lia|].
  rewrite Hq, Ht.
  unfold bind, Date_now, saveQueueState, store_set, log, ret. world.
  rewrite Hs. eexists. split; [reflexivity|]. world.
  split; reflexivity.
Qed.

(** X1.  With room under the ceiling, a head of pending that has a record and
    a store that takes the write, the start phase of the concurrency variant
    persists: the head gone from pending, its identifier last in flight, its
    task processing with a start timestamp, and every other member,
    [rateLimitHistory] included, as it was read. *)
Theorem ceiling_start_claims_head env w taskId rest task :
  (length (processing (view_legacy (blob w))) < Ceiling.MAX_CONCURRENCY)%nat ->
  queue (view_legacy (blob w)) = taskId :: rest ->
  tasks (view_legacy (blob w)) !! taskId = Some task ->
  set_at env (length (puts w)) = None ->
  let state := view_legacy (blob w) in
  let claimed :=
    {| queue := rest;
       processing := processing state ++ [taskId];
       completed := completed state;
       tasks :=
         <[taskId :=
             {| id := id task; status := StProcessing;
                createdAt := createdAt task;
                startedAt := Some (now_at env (ticks w));
                completedAt := completedAt task; data := data task |}]>
           (tasks state);
       rateLimitHistory := rateLimitHistory state |} in
  ∃ w',
    Ceiling.startNext env w = (Done (Some taskId), w') ∧
    blob w' = Some claimed ∧ puts w' = puts w ++ [claimed].
Proof.
  intros Hroom Hq Ht Hs.
  exact (ceiling_startNext_accepted env w taskId rest task Hroom Hq Ht Hs).
Qed.

Lemma ceiling_start_claims_head_witness :
  ∃ w',
    Ceiling.startNext calm (fresh_world (Some busy))
      = (Done (Some "task-c"), w') ∧
    (processing <$> blob w') = Some ["task-a"; "task-b"; "task-c"] ∧
    (queue <$> blob w') = Some ["task-d"] ∧
    (rateLimitHistory <$> blob w')
      = Some (Some [1699999970000; 1699999980000]).
Proof.
  destruct (ceiling_start_claims_head calm (fresh_world (Some busy))
              "task-c" ["task-d"] (sample_task "task-c"))
    as (w' & Hrun & Hblob & _).
  - vm_compute. lia.
  - reflexivity.
  - vm_compute. reflexivity.
  - reflexivity.
  - exists w'. split; [exact Hrun|]. rewrite Hblob. vm_compute. tauto.
Defined.

Lemma ceiling_startNext_within env :
  preserves within_ceiling env Ceiling.startNext.
Proof.
  unfold Ceiling.startNext. apply preserves_read_legacy. intros b Hb.
  destruct (decide _) as [Hfull|Hroom]; [kept|].
  destruct (queue (view_legacy b)) as [|taskId rest]; [kept|].
  destruct (tasks (view_legacy b) !! taskId) as [task|]; [|kept].
  apply preserves_bind; [kept|intros started].
  apply preserves_bind; [|intros ?; kept].
  apply preserves_save. unfold within_ceiling. cbn [view_legacy processing].
  rewrite length_app. cbn [length]. lia.
Qed.

Lemma ceiling_finish_within env taskId :
  preserves within_ceiling env (Ceiling.finish taskId).
Proof.
  unfold Ceiling.finish. apply preserves_read_legacy. intros b Hb.
  assert (Hless : ∀ q c t h,
            within_ceiling
              (Some {| queue := q;
                       processing :=
                         splice_first taskId (processing (view_legacy b));
                       completed := c; tasks := t;
                       rateLimitHistory := h |})).
  { intros q c t h. unfold within_ceiling in *. cbn [view_legacy processing].
    pose proof (splice_first_length taskId (processing (view_legacy b))).
    lia. }
  destruct (tasks (view_legacy b) !! taskId) as [task|].
  - unfold bind at 1. intros w Hw.
    unfold bind at 1, Date_now at 1, ret at 1. cbv beta iota.
    match goal with
    | |- within_ceiling (blob (?c env ?w0).2) =>
        cut (preserves within_ceiling env c); [intros Hk; apply Hk; exact Hw|]
    end.
    apply preserves_bind; [apply preserves_save, Hless|intros ?]. kept.
  - unfold bind at 1. intros w Hw. unfold ret at 1. cbv beta iota.
    match goal with
    | |- within_ceiling (blob (?c env ?w0).2) =>
        cut (preserves within_ceiling env c); [intros Hk; apply Hk; exact Hw|]
    end.
    apply preserves_bind; [apply preserves_save, Hless|intros ?]. kept.
Qed.

(** X2.  A turn of the concurrency variant never leaves more than six
    identifiers in flight when it found at most six and the others keep it
    so: the start adds one only below the ceiling, the completion only
    removes. *)
Theorem ceiling_kept_by_turn env w :
  others_preserve within_ceiling env ->
  within_ceiling (blob w) ->
  within_ceiling (blob (Ceiling.processNextTask env w).2).
Proof.
  intros Hrely. revert w.
  change (preserves within_ceiling env Ceiling.processNextTask).
  unfold Ceiling.processNextTask.
  apply preserves_bind; [apply ceiling_startNext_within|intros [taskId|]].
  - apply preserves_bind; [apply preserves_sleep, Hrely|intros ?].
    apply ceiling_finish_within.
  - kept.
Qed.

Lemma ceiling_kept_by_turn_witness :
  within_ceiling
    (blob (Ceiling.processNextTask calm (fresh_world (Some busy))).2).
Proof.
  apply (ceiling_kept_by_turn calm (fresh_world (Some busy))).
  - intros n b Hb. exact Hb.
  - unfold within_ceiling. vm_compute. lia.
Defined.

(** ** The rate-limit dispatcher, continued *)

Lemma in_window_filter_le now (P : Z → Prop) `{∀ x, Decision (P x)}
    (h : list Z) :
  (length (in_window now (filter P h)) <= length (in_window now h))%nat.
Proof.
  unfold in_window. induction h as [|t h IH]; [reflexivity|].
  rewrite (filter_cons P). destruct (decide (P t)).
  - rewrite !filter_cons. destruct (decide (t > now - 60000)); simpl; lia.
  - rewrite filter_cons. destruct (decide (t > now - 60000)); simpl; lia.
Qed.

Lemma in_window_snoc_le now (h : list Z) (t : Z) :
  (length (in_window now (h ++ [t])) <= S (length (in_window now h)))%nat.
Proof.
  unfold in_window. rewrite filter_app, length_app, filter_cons, filter_nil.
  destruct (decide (t > now - 60000)); simpl; lia.
Qed.

(** X3.  Whatever a start phase of the rate-limit variant persists holds at
    most 250 starts after its clock reading minus one minute, the start it
    records included. *)
Theorem start_keeps_window_within_limit env w :
  let after := (RateLimit.startNext env w).2 in
  blob after = blob w ∨
  (length (in_window (now_at env (ticks w)) (starts (view (blob after))))
   <= RateLimit.RATE_LIMIT_REQUESTS)%nat.
Proof.
  intros after. subst after.
  destruct (RateLimit.startNext env w) as [r after] eqn:Hrun. cbn [snd].
  unfold RateLimit.startNext, bind at 1 in Hrun.
  rewrite getQueueState_run in Hrun.
  destruct (queue (view (blob w))) as [|taskId rest];
    [injection Hrun as <- <-; left; reflexivity|].
  unfold bind at 1, Date_now at 1 in Hrun. cbv beta iota in Hrun.
  unfold bind at 1 in Hrun. rewrite history_view_run in Hrun. world in Hrun.
  destruct (decide _) as [Hfull|Hroom];
    [injection Hrun as <- <-; left; reflexivity|].
  destruct (tasks (view (blob w)) !! taskId) as [task|];
    [|injection Hrun as <- <-; left; reflexivity].
  unfold bind, Date_now, saveQueueState, store_set, log, ret in Hrun.
  world in Hrun.
  destruct (set_at env (length (puts w)));
    injection Hrun as <- <-; [left; reflexivity|].
  right. world. cbn [view rateLimitHistory starts default].
  etransitivity; [apply in_window_filter_le|].
  etransitivity; [apply in_window_snoc_le|].
  unfold in_window. lia.
Qed.

(** What the completion leaves in the store when its write is taken. *)
Lemma finish_blob env w taskId :
  set_at env (length (puts w)) = None ->
  let marked :=
    completion_of (view (blob w)) taskId (now_at env (ticks w)) in
  blob (RateLimit.finish taskId env w).2 = Some marked ∧
  puts (RateLimit.finish taskId env w).2 = puts w ++ [marked].
Proof.
  intros Hs marked. subst marked.
  destruct (RateLimit.finish taskId env w) as [r after] eqn:Hrun.
  cbn [snd]. unfold completion_of.
  unfold RateLimit.finish, bind at 1 in Hrun.
  rewrite getQueueState_run in Hrun.
  assert (Htail : ∀ marked w0 r0 after0,
            blob w0 = blob w -> puts w0 = puts w ->
            set_at env (length (puts w0)) = None ->
            (saveQueueState marked ;;;
             log (LogCompleted taskId) ;;;
             finalState <- getQueueState ;;
             if decide (0 < length (queue finalState))%nat then
               finalNow <- Date_now ;;
               h <- history finalState ;;
               if decide
                    (length
                       (filter (λ timestamp, (timestamp > finalNow - 60000)%Z)
                          h)
                     < RateLimit.RATE_LIMIT_REQUESTS)%nat
               then send_wake
               else ret tt
             else ret tt) env w0 = (r0, after0) ->
            blob after0 = Some marked ∧ puts after0 = puts w ++ [marked]).
  { intros marked w0 r0 after0 Hb Hp Hset Htail.
    unfold bind at 1, saveQueueState, store_set in Htail.
    rewrite Hset in Htail.
    unfold bind at 1, log at 1 in Htail. unfold bind at 1 in Htail.
    rewrite getQueueState_run in Htail. world in Htail.
    destruct (decide _);
      [|injection Htail as <- <-; world; rewrite Hp; split; reflexivity].
    unfold bind at 1, Date_now at 1 in Htail. cbv beta iota in Htail.
    unfold bind at 1 in Htail. rewrite history_view_run in Htail.
    destruct (decide _);
      [|injection Htail as <- <-; world; rewrite Hp; split; reflexivity].
    unfold send_wake in Htail. world in Htail.
    destruct (send_at env (sends w0));
      injection Htail as <- <-; world; rewrite Hp; split; reflexivity. }
  destruct (tasks (view (blob w)) !! taskId) as [task|].
  - unfold bind at 1, bind at 1, Date_now at 1, ret at 1 in Hrun.
    cbv beta iota in Hrun.
    eapply Htail in Hrun; [exact Hrun|reflexivity|reflexivity|exact Hs].
  - unfold bind at 1, ret at 1 in Hrun.
    eapply Htail in Hrun; [exact Hrun|reflexivity|reflexivity|exact Hs].
Qed.

(** X4.  The completion of a task whose record exists, on a store that takes
    the write, persists the re-read state with the first occurrence of the
    identifier gone from in flight, the identifier appended to completed and
    the record marked completed with a completion timestamp; pending, the
    starts log and every other record are as they were read, and this is the
    only write the completion offers. *)
Theorem finish_completes_task env w taskId task :
  tasks (view (blob w)) !! taskId = Some task ->
  set_at env (length (puts w)) = None ->
  let state := view (blob w) in
  let marked :=
    {| queue := queue state;
       processing := splice_first taskId (processing state);
       completed := completed state ++ [taskId];
       tasks :=
         <[taskId :=
             {| id := id task; status := StCompleted;
                createdAt := createdAt task; startedAt := startedAt task;
                completedAt := Some (now_at env (ticks w));
                data := data task |}]>
           (tasks state);
       rateLimitHistory := rateLimitHistory state |} in
  blob (RateLimit.finish taskId env w).2 = Some marked ∧
  puts (RateLimit.finish taskId env w).2 = puts w ++ [marked] ∧
  (∀ other, other ≠ taskId → tasks marked !! other = tasks state !! other) ∧
  (taskId ∉ processing state → processing marked = processing state).
Proof.
  intros Ht Hs state marked.
  pose proof (finish_blob env w taskId Hs) as Hfinish.
  unfold completion_of in Hfinish. rewrite Ht in Hfinish.
  destruct Hfinish as [Hblob Hputs].
  split; [exact Hblob|]. split; [exact Hputs|]. split.
  - intros other Hne. unfold marked. cbn [tasks].
    apply lookup_insert_ne. congruence.
  - intros Habsent. unfold marked. cbn [processing].
    apply splice_first_absent. exact Habsent.
Qed.

Lemma finish_completes_task_witness :
  let after := (RateLimit.finish "task-a" calm (fresh_world (Some busy))).2 in
  (processing <$> blob after) = Some ["task-b"] ∧
  (completed <$> blob after) = Some ["task-z"; "task-a"] ∧
  (queue <$> blob after) = Some ["task-c"; "task-d"] ∧
  length (puts after) = 1%nat.
Proof.
  destruct (finish_completes_task calm (fresh_world (Some busy)) "task-a"
              (sample_task "task-a"))
    as (Hblob & Hputs & _).
  - vm_compute. reflexivity.
  - reflexivity.
  - cbv zeta. rewrite Hblob, Hputs. vm_compute. tauto.
Defined.

(** X5.  The completion of a task whose record is missing still saves: the
    identifier leaves in flight, but it is not appended to completed and no
    record is created. *)
Theorem finish_without_record env w taskId :
  tasks (view (blob w)) !! taskId = None ->
  set_at env (length (puts w)) = None ->
  let state := view (blob w) in
  let saved :=
    {| queue := queue state;
       processing := splice_first taskId (processing state);
       completed := completed state;
       tasks := tasks state;
       rateLimitHistory := rateLimitHistory state |} in
  blob (RateLimit.finish taskId env w).2 = Some saved ∧
  puts (RateLimit.finish taskId env w).2 = puts w ++ [saved].
Proof.
  intros Ht Hs state saved.
  pose proof (finish_blob env w taskId Hs) as Hfinish.
  unfold completion_of in Hfinish. rewrite Ht in Hfinish. exact Hfinish.
Qed.

Lemma finish_without_record_witness :
  let after :=
    (RateLimit.finish "task-a" calm (fresh_world (Some record_dropped))).2 in
  (processing <$> blob after) = Some ["task-b"] ∧
  (completed <$> blob after) = Some [].
Proof.
  destruct (finish_without_record calm (fresh_world (Some record_dropped))
              "task-a")
    as (Hblob & _).
  - vm_compute. reflexivity.
  - reflexivity.
  - cbv zeta. rewrite Hblob. vm_compute. tauto.
Defined.

Lemma finish_as_tail env w taskId :
  RateLimit.finish taskId env w
  = completion_tail taskId
      (completion_of (view (blob w)) taskId (now_at env (ticks w)))
      env (world_at_completion (view (blob w)) taskId w).
Proof.
  unfold RateLimit.finish, completion_of, world_at_completion, bind at 1.
  rewrite getQueueState_run.
  destruct (tasks (view (blob w)) !! taskId); reflexivity.
Qed.

(** The tail of a completion: the wake signal goes out exactly when pending
    is non-empty and fewer than 250 starts lie in the trailing minute, and an
    undelivered signal is what the tail throws. *)
Lemma completion_tail_wake env w0 taskId marked h :
  set_at env (length (puts w0)) = None ->
  rateLimitHistory marked = Some h ->
  let due :=
    queue marked ≠ [] ∧
    (length (in_window (now_at env (ticks w0)) h)
     < RateLimit.RATE_LIMIT_REQUESTS)%nat in
  let after := completion_tail taskId marked env w0 in
  (due →
   sends after.2 = S (sends w0) ∧
   after.1 = match send_at env (sends w0) with
             | None => Done tt
             | Some e => Threw e
             end) ∧
  (¬ due → sends after.2 = sends w0 ∧ after.1 = Done tt).
Proof.
  intros Hset Hh due after. subst after.
  destruct (completion_tail taskId marked env w0) as [r after] eqn:Hrun.
  cbn [fst snd].
  unfold completion_tail, bind at 1, saveQueueState, store_set in Hrun.
  rewrite Hset in Hrun.
  unfold bind at 1, log at 1 in Hrun. unfold bind at 1 in Hrun.
  rewrite getQueueState_run in Hrun. world in Hrun.
  cbn [view] in Hrun. rewrite Hh in Hrun.
  destruct (decide (0 < length (queue marked))%nat) as [Hwork|Hidle].
  - unfold bind at 1, Date_now at 1 in Hrun. cbv beta iota in Hrun.
    unfold bind at 1, history in Hrun. rewrite Hh in Hrun.
    unfold ret at 1 in Hrun. world in Hrun.
    destruct (decide _) as [Hroom|Hfull].
    + unfold send_wake in Hrun. world in Hrun. split.
      * intros _. destruct (send_at env (sends w0));
          injection Hrun as <- <-; split; reflexivity.
      * intros Hnot. exfalso. apply Hnot. split; [|exact Hroom].
        destruct (queue marked); [simpl in Hwork; lia|discriminate].
    + unfold ret in Hrun. injection Hrun as <- <-. split.
      * intros [_ Hroom]. unfold in_window in Hroom. contradiction.
      * intros _. split; reflexivity.
  - unfold ret in Hrun. injection Hrun as <- <-. split.
    + intros [Hq _]. exfalso. apply Hidle.
      destruct (queue marked); [contradiction|simpl; lia].
    + intros _. split; reflexivity.
Qed.

(** X6.  After a completion whose write is taken, the turn sends the wake
    signal exactly when pending is non-empty and fewer than 250 starts lie in
    the trailing minute of its next clock reading; the turn then ends as the
    signal does, throwing what an undelivered signal throws, and otherwise it
    returns without sending. *)
Theorem finish_wakes_when_due env w taskId :
  set_at env (length (puts w)) = None ->
  let state := view (blob w) in
  let now :=
    now_at env (ticks_after_completion state taskId (ticks w)) in
  let due :=
    queue state ≠ [] ∧
    (length (in_window now (starts state))
     < RateLimit.RATE_LIMIT_REQUESTS)%nat in
  let after := RateLimit.finish taskId env w in
  (due →
   sends after.2 = S (sends w) ∧
   after.1 = match send_at env (sends w) with
             | None => Done tt
             | Some e => Threw e
             end) ∧
  (¬ due → sends after.2 = sends w ∧ after.1 = Done tt).
Proof.
  intros Hs state now due after. subst after due now.
  rewrite finish_as_tail. fold state.
  pose proof (completion_tail_wake env
                (world_at_completion state taskId w) taskId
                (completion_of state taskId (now_at env (ticks w)))
                (starts state)) as Htail.
  unfold world_at_completion, completion_of, ticks_after_completion in *.
  destruct (tasks state !! taskId) as [task|]; world in Htail;
    cbn [queue rateLimitHistory] in Htail;
    apply Htail; try exact Hs; apply view_history.
Qed.

Lemma finish_wakes_when_due_witness :
  let delivered := RateLimit.finish "task-a" calm (fresh_world (Some busy)) in
  let lost := RateLimit.finish "task-a" wake_lost (fresh_world (Some busy)) in
  (sends delivered.2 = 1%nat ∧ delivered.1 = Done tt) ∧
  (sends lost.2 = 1%nat ∧
   lost.1 = Threw (ErrorObj "event router returned 404") ∧
   (completed <$> blob lost.2) = Some ["task-z"; "task-a"]).
Proof.
  split.
  - apply (finish_wakes_when_due calm (fresh_world (Some busy)) "task-a");
      [reflexivity|].
    split; [discriminate|vm_compute; lia].
  - destruct (finish_wakes_when_due wake_lost (fresh_world (Some busy))
                "task-a" eq_refl) as [Hdue _].
    destruct Hdue as [Hsends Hres];
      [split; [discriminate|vm_compute; lia]|].
    split; [exact Hsends|]. split; [exact Hres|]. vm_compute. reflexivity.
Defined.

(** The start phase on a store that takes the write, with the counters of
    the world it leaves. *)
Lemma startNext_accepted env w taskId rest task :
  queue (view (blob w)) = taskId :: rest ->
  (length (in_window (now_at env (ticks w)) (starts (view (blob w))))
   < RateLimit.RATE_LIMIT_REQUESTS)%nat ->
  tasks (view (blob w)) !! taskId = Some task ->
  set_at env (length (puts w)) = None ->
  let state := view (blob w) in
  let claimed :=
    {| queue := rest;
       processing := processing state ++ [taskId];
       completed := completed state;
       tasks := <[taskId := mark_processing task (now_at env (S (ticks w)))]>
                  (tasks state);
       rateLimitHistory :=
         Some (filter
                 (λ timestamp,
                    timestamp > now_at env (S (S (S (ticks w)))) - 3600000)
                 (starts state ++ [now_at env (S (S (ticks w)))])) |} in
  ∃ w',
    RateLimit.startNext env w = (Done (Some taskId), w') ∧
    blob w' = Some claimed ∧ puts w' = puts w ++ [claimed] ∧
    ticks w' = S (S (S (S (ticks w)))) ∧ naps w' = naps w ∧
    sends w' = sends w.
Proof.
  intros Hq Hr Ht Hs state claimed.
  unfold RateLimit.startNext, bind at 1. rewrite getQueueState_run.
  rewrite Hq. unfold bind at 1, Date_now at 1. cbv beta iota.
  unfold bind at 1. rewrite history_view_run. world.
  destruct (decide _) as [Hge|_]; [unfold in_window in Hr; lia|].
  rewrite Ht.
  unfold bind, Date_now, saveQueueState, store_set, log, ret. world.
  rewrite Hs. eexists. split; [reflexivity|]. world.
  repeat split; reflexivity.
Qed.

(** X7.  A whole turn of the rate-limit variant with nobody else writing and
    both writes taken moves the head of pending to the tail of completed:
    pending loses its head, in flight is what it was, the record is completed
    with the start and completion timestamps of the turn, and the starts log
    has gained the start and lost what lies behind the one-hour horizon.
    Whether the wake signal for the next turn is delivered does not change
    what is stored. *)
Theorem quiet_turn_moves_head_to_completed env w taskId rest task :
  quiet env ->
  queue (view (blob w)) = taskId :: rest ->
  (length (in_window (now_at env (ticks w)) (starts (view (blob w))))
   < RateLimit.RATE_LIMIT_REQUESTS)%nat ->
  tasks (view (blob w)) !! taskId = Some task ->
  taskId ∉ processing (view (blob w)) ->
  set_at env (length (puts w)) = None ->
  set_at env (S (length (puts w))) = None ->
  let state := view (blob w) in
  blob (RateLimit.processNextTask env w).2
  = Some
      {| queue := rest;
         processing := processing state;
         completed := completed state ++ [taskId];
         tasks :=
           <[taskId :=
               {| id := id task; status := StCompleted;
                  createdAt := createdAt task;
                  startedAt := Some (now_at env (S (ticks w)));
                  completedAt := Some (now_at env (S (S (S (S (ticks w))))));
                  data := data task |}]>
             (tasks state);
         rateLimitHistory :=
           Some (filter
                   (λ timestamp,
                      timestamp > now_at env (S (S (S (ticks w)))) - 3600000)
                   (starts state ++ [now_at env (S (S (ticks w)))])) |}.
Proof.
  intros Hquiet Hq Hr Ht Hfree Hs1 Hs2 state.
  destruct (startNext_accepted env w taskId rest task Hq Hr Ht Hs1)
    as (w1 & Hrun & Hblob & Hputs & Hticks & _).
  unfold RateLimit.processNextTask, bind at 1. rewrite Hrun.
  unfold bind at 1, sleep at 1.
  match goal with
  | |- blob (RateLimit.finish taskId env ?w2).2 = _ =>
      destruct (finish_blob env w2 taskId) as [Hdone _]
  end.
  { world. rewrite Hputs, length_app. cbn [length].
    rewrite Nat.add_1_r. exact Hs2. }
  rewrite Hdone. world. rewrite Hquiet, Hblob, Hticks.
  unfold completion_of. cbn [view rateLimitHistory tasks].
  rewrite lookup_insert_eq. cbn [queue processing completed].
  rewrite (splice_first_appended _ _ Hfree), insert_insert_eq.
  reflexivity.
Qed.

Lemma quiet_turn_moves_head_to_completed_witness :
  let after :=
    (RateLimit.processNextTask calm (fresh_world (Some busy))).2 in
  (queue <$> blob after) = Some ["task-d"] ∧
  (processing <$> blob after) = Some ["task-a"; "task-b"] ∧
  (completed <$> blob after) = Some ["task-z"; "task-c"] ∧
  (starts <$> blob after)
    = Some [1699999970000; 1699999980000; 1700000000002].
Proof.
  pose proof (quiet_turn_moves_head_to_completed calm
                (fresh_world (Some busy)) "task-c" ["task-d"]
                (sample_task "task-c")) as Hturn.
  cbv zeta in *. rewrite Hturn.
  - vm_compute. tauto.
  - intros n b. reflexivity.
  - reflexivity.
  - vm_compute. lia.
  - vm_compute. reflexivity.
  - refine (bool_decide_unpack _ _). vm_compute. exact I.
  - reflexivity.
  - reflexivity.
Defined.

(** ** Admission, continued *)

(** The retry loop when the store rejects [k] writes and takes the next one,
    nobody else writing and the identifier new. *)
Lemma retry_loop_accepts_after k :
  ∀ fuel retries taskId task state env w,
    quiet env ->
    (k < retries)%nat -> (k < fuel)%nat ->
    (∀ j, (j < k)%nat → set_at env (length (puts w) + j) ≠ None) ->
    set_at env (length (puts w) + k) = None ->
    tasks (view_legacy (blob w)) !! taskId = None ->
    ∃ w',
      Admission.retry_loop fuel retries taskId task state env w
        = (Done (taskId,
                 Some (appended (view_legacy (blob w)) taskId task), true),
           w') ∧
      blob w' = Some (appended (view_legacy (blob w)) taskId task) ∧
      length (puts w') = (length (puts w) + k + 1)%nat ∧
      naps w' = (naps w + k)%nat ∧ sends w' = sends w ∧
      console w' = console w.
Proof.
  induction k as [|k IH];
    intros fuel retries taskId task state env w Hquiet Hretries Hfuel
      Hfail Hok Hfresh.
  - destruct retries as [|retries']; [lia|]. destruct fuel as [|fuel]; [lia|].
    cbn [Admission.retry_loop].
    unfold bind at 1. rewrite getQueueState_legacy_run, Hfresh.
    unfold try_catch, bind, saveQueueState, store_set, ret.
    rewrite Nat.add_0_r in Hok. rewrite Hok.
    eexists. split; [reflexivity|]. world. rewrite length_app. cbn [length].
    repeat split; lia.
  - destruct retries as [|retries']; [lia|]. destruct fuel as [|fuel]; [lia|].
    cbn [Admission.retry_loop].
    unfold bind at 1. rewrite getQueueState_legacy_run, Hfresh.
    unfold try_catch, bind at 1, saveQueueState, store_set.
    pose proof (Hfail 0%nat ltac:(lia)) as Hfirst.
    rewrite Nat.add_0_r in Hfirst.
    destruct (set_at env (length (puts w))) as [e|]; [|contradiction].
    unfold bind at 1.
    destruct (decide (0 < retries')%nat) as [_|Hnone]; [|lia].
    unfold sleep at 1. cbv beta iota. world. rewrite Hquiet.
    match goal with
    | |- context [Admission.retry_loop fuel retries' taskId task ?s env ?wn] =>
        destruct (IH fuel retries' taskId task s env wn)
          as (w' & Hrun & Hblob & Hputs & Hnaps & Hsends & Hcons)
    end; world.
    + exact Hquiet.
    + lia.
    + lia.
    + intros j Hj. rewrite length_app. cbn [length].
      replace (length (puts w) + 1 + j)%nat
        with (length (puts w) + S j)%nat by lia.
      apply Hfail. lia.
    + rewrite length_app. cbn [length].
      replace (length (puts w) + 1 + k)%nat
        with (length (puts w) + S k)%nat by lia.
      exact Hok.
    + exact Hfresh.
    + world in Hrun. world in Hblob. world in Hputs. world in Hnaps.
      world in Hsends. world in Hcons.
      exists w'. split; [exact Hrun|]. split; [exact Hblob|].
      rewrite length_app in Hputs. cbn [length] in Hputs.
      repeat split; [lia|lia|exact Hsends|exact Hcons].
Qed.

(** Admission when the store rejects [k] writes and takes the next. *)
Lemma admission_after_rejections env w fuel req k :
  method req = "POST" ->
  body_of req ≠ JNull ->
  quiet env ->
  (k < 5)%nat -> (k < fuel)%nat ->
  (∀ j, (j < k)%nat → set_at env (length (puts w) + j) ≠ None) ->
  set_at env (length (puts w) + k) = None ->
  tasks (view_legacy (blob w)) !! id_at env (minted w) = None ->
  let state := view_legacy (blob w) in
  let taskId := id_at env (minted w) in
  let after := Admission.queue_task fuel req env w in
  after.1
    = Done {| code := 200;
              body := Accepted taskId (S (length (queue state))) |} ∧
  blob after.2
    = Some
        {| queue := queue state ++ [taskId];
           processing := processing state;
           completed := completed state;
           tasks :=
             <[taskId :=
                 {| id := taskId; status := StQueued;
                    createdAt := now_at env (ticks w);
                    startedAt := None; completedAt := None;
                    data := Some (or_empty (data_member (body_of req))) |}]>
               (tasks state);
           rateLimitHistory := rateLimitHistory state |} ∧
  length (puts after.2) = (length (puts w) + k + 1)%nat ∧
  naps after.2 = (naps w + k)%nat ∧
  sends after.2
    = (if decide (length (processing state) < Ceiling.MAX_CONCURRENCY)%nat
       then S (sends w) else sends w).
Proof.
  intros Hpost Hbody Hquiet Hk Hfuel Hfail Hok Hfresh state taskId after.
  subst after.
  destruct (Admission.queue_task fuel req env w) as [r after] eqn:Hrun.
  cbn [fst snd].
  unfold Admission.queue_task in Hrun. rewrite Hpost in Hrun.
  destruct (decide _) as [Hne|_]; [contradiction|].
  unfold try_catch at 1, bind at 1, mint_id at 1 in Hrun.
  unfold bind at 1, Date_now at 1 in Hrun. world in Hrun.
  unfold bind at 1 in Hrun. fold (body_of req) in Hrun.
  rewrite body_data_run in Hrun by exact Hbody.
  unfold bind at 1 in Hrun.
  match type of Hrun with
  | context [Admission.retry_loop fuel 5 ?i ?t ?s env ?w0] =>
      destruct (retry_loop_accepts_after k fuel 5 i t s env w0)
        as (wl & Hloop & Hblob & Hputs & Hnaps & Hsends & _);
        [exact Hquiet|exact Hk|exact Hfuel|exact Hfail|exact Hok|exact Hfresh|]
  end.
  rewrite Hloop in Hrun. world in Hblob. world in Hputs. world in Hnaps.
  world in Hsends.
  unfold bind at 1 in Hrun. cbn [appended processing queue] in Hrun.
  world in Hrun. fold state in Hrun, Hblob |- *.
  destruct (decide (length (processing state) < Ceiling.MAX_CONCURRENCY)%nat).
  - unfold try_catch, send_wake, log, bind, ret in Hrun.
    destruct (send_at env (sends wl)); cbv beta iota in Hrun;
      injection Hrun as <- <-; world;
      rewrite length_app, Nat.add_1_r, Hblob, Hputs, Hnaps, Hsends;
      repeat split; reflexivity.
  - unfold bind, ret in Hrun. cbv beta iota in Hrun.
    injection Hrun as <- <-.
    rewrite length_app, Nat.add_1_r, Hblob, Hputs, Hnaps, Hsends.
    repeat split; reflexivity.
Qed.

(** X8.  Admission is accepted as soon as one of its five offers is: when
    the store rejects the first [k] writes ([k] below five) and takes the
    next, nobody else writing and the identifier new, the endpoint answers
    200 with the identifier and its 1-based position, having offered [k+1]
    writes and backed off [k] times; the blob is the state read plus the
    identifier at the tail of pending and its queued record, every other
    member as read.  The wake signal is sent only below the ceiling, and
    whether it is delivered does not change the answer. *)
Theorem admission_retries_until_accepted env w fuel req k :
  method req = "POST" ->
  body_of req ≠ JNull ->
  quiet env ->
  (k < 5)%nat -> (k < fuel)%nat ->
  (∀ j, (j < k)%nat → set_at env (length (puts w) + j) ≠ None) ->
  set_at env (length (puts w) + k) = None ->
  tasks (view_legacy (blob w)) !! id_at env (minted w) = None ->
  let state := view_legacy (blob w) in
  let taskId := id_at env (minted w) in
  let after := Admission.queue_task fuel req env w in
  after.1
    = Done {| code := 200;
              body := Accepted taskId (S (length (queue state))) |} ∧
  blob after.2
    = Some
        {| queue := queue state ++ [taskId];
           processing := processing state;
           completed := completed state;
           tasks :=
             <[taskId :=
                 {| id := taskId; status := StQueued;
                    createdAt := now_at env (ticks w);
                    startedAt := None; completedAt := None;
                    data := Some (or_empty (data_member (body_of req))) |}]>
               (tasks state);
           rateLimitHistory := rateLimitHistory state |} ∧
  length (puts after.2) = (length (puts w) + k + 1)%nat ∧
  naps after.2 = (naps w + k)%nat ∧
  sends after.2
    = (if decide (length (processing state) < Ceiling.MAX_CONCURRENCY)%nat
       then S (sends w) else sends w).
Proof.
  intros Hpost Hbody Hquiet Hk Hfuel Hfail Hok Hfresh.
  exact (admission_after_rejections env w fuel req k Hpost Hbody Hquiet Hk
           Hfuel Hfail Hok Hfresh).
Qed.

Lemma admission_retries_until_accepted_witness :
  let after :=
    Admission.queue_task 5 (post_request (Some (JObj [("data", JNum 7)])))
      three_writes_lost (fresh_world (Some busy)) in
  after.1
    = Done {| code := 200; body := Accepted "task-1700000000000-0" 3 |} ∧
  length (puts after.2) = 4%nat ∧ naps after.2 = 3%nat.
Proof.
  destruct (admission_retries_until_accepted three_writes_lost
              (fresh_world (Some busy)) 5
              (post_request (Some (JObj [("data", JNum 7)]))) 3)
    as (Hres & _ & Hputs & Hnaps & _).
  - reflexivity.
  - discriminate.
  - intros n b. reflexivity.
  - lia.
  - lia.
  - intros j Hj. cbn. destruct (decide (j < 3)%nat); [discriminate|lia].
  - reflexivity.
  - vm_compute. reflexivity.
  - cbv zeta. rewrite Hres, Hputs, Hnaps. vm_compute. tauto.
Defined.

(** A successful run of the rate-limit era loop ends on the accepted write,
    whose history is the one of the snapshot passed in. *)
Lemma rl_retry_loop_success fuel :
  ∀ retries taskId task state env w tid st w',
    AdmissionRL.retry_loop fuel retries taskId task state env w
      = (Done (tid, st, true), w') ->
    blob w' = Some st ∧
    rateLimitHistory st = rateLimitHistory state ∧
    ∃ st0 t,
      queue st = queue st0 ++ [tid] ∧
      tasks st = <[tid := t]> (tasks st0) ∧
      processing st = processing st0 ∧
      completed st = completed st0.
Proof.
  induction fuel as [|fuel IH];
    intros retries taskId task state env w tid st w' Hrun.
  - destruct retries; simpl in Hrun; discriminate.
  - destruct retries as [|retries']; [simpl in Hrun; discriminate|].
    cbn [AdmissionRL.retry_loop] in Hrun.
    unfold bind at 1 in Hrun. rewrite getQueueState_run in Hrun.
    destruct (tasks (view (blob w)) !! taskId) as [found|] eqn:Hlook.
    + unfold bind at 1, mint_id at 1 in Hrun.
      eapply IH in Hrun. exact Hrun.
    + unfold try_catch, bind at 1, saveQueueState, store_set in Hrun.
      destruct (set_at env (length (puts w))) as [e|].
      * unfold bind at 1 in Hrun.
        destruct (decide (0 < retries')%nat).
        -- unfold sleep at 1 in Hrun. eapply IH in Hrun. exact Hrun.
        -- unfold ret at 1 in Hrun. eapply IH in Hrun. exact Hrun.
      * unfold bind, ret in Hrun. injection Hrun as <- <- <-. world.
        split; [reflexivity|]. split; [reflexivity|].
        exists (view (blob w)), task.
        cbn [queue tasks processing completed]. tauto.
Qed.

(** X9.  Whatever happens during its retries, an accepted admission of the
    rate-limit era stores as starts log the log it read before its first
    attempt: starts that others recorded in between are not in the blob it
    leaves.  The new identifier is last in pending, at the position the
    answer reports. *)
Theorem rl_admission_stores_first_read_history
    env w fuel req taskId position w1 :
  AdmissionRL.queue_task fuel req env w
    = (Done {| code := 200; body := Accepted taskId position |}, w1) ->
  ∃ st,
    blob w1 = Some st ∧
    rateLimitHistory st = Some (starts (view (blob w))) ∧
    (∃ before, queue st = before ++ [taskId]) ∧
    position = length (queue st).
Proof.
  unfold AdmissionRL.queue_task.
  destruct (decide _) as [_|_]; [discriminate|].
  unfold try_catch at 1, bind at 1, mint_id at 1.
  unfold bind at 1, Date_now at 1. world.
  unfold bind at 1. fold (body_of req).
  assert (body_of req = JNull ∨ body_of req ≠ JNull) as [Hnull|Hbody]
    by (destruct (body_of req); auto).
  { rewrite Hnull, body_data_null. discriminate. }
  rewrite body_data_run by exact Hbody.
  unfold bind at 1. rewrite getQueueState_run. world.
  unfold bind at 1.
  match goal with
  | |- context [AdmissionRL.retry_loop ?f ?n ?i ?t ?s ?e ?w0] =>
      destruct (AdmissionRL.retry_loop f n i t s e w0) as [res wl] eqn:Hloop
  end.
  destruct res as [[[tid st] success]|e|]; [|discriminate..].
  destruct success; [|discriminate].
  apply rl_retry_loop_success in Hloop.
  destruct Hloop as (Hblob & Hhist & st0 & t & Hq & _).
  unfold bind at 1, try_catch, send_wake, log, ret.
  destruct (send_at env (sends wl)); cbv beta iota;
    intros [= <- <- <-]; exists st; world;
    (split; [exact Hblob|]);
    (split; [rewrite Hhist; apply view_history|]);
    (split; [exists (queue st0); exact Hq|reflexivity]).
Qed.

Lemma rl_admission_stores_first_read_history_witness :
  ∃ st,
    blob (AdmissionRL.queue_task 5 (post_request None) dispatcher_between
            (fresh_world (Some one_pending))).2 = Some st ∧
    rateLimitHistory st = Some [1699992800000; 1699999970000].
Proof.
  destruct (rl_admission_stores_first_read_history dispatcher_between
              (fresh_world (Some one_pending)) 5 (post_request None)
              "task-1700000000000-0" 1
              (AdmissionRL.queue_task 5 (post_request None) dispatcher_between
                 (fresh_world (Some one_pending))).2)
    as (st & Hblob & Hhist & _).
  - vm_compute. reflexivity.
  - exists st. split; [exact Hblob|]. rewrite Hhist. reflexivity.
Defined.

(** ** Admission without retries *)

(** X10.  The first admission endpoint writes without looking: when the
    store takes its single write it answers 200 and the blob is the state
    read with the identifier appended to pending and the new queued record
    under it, also when that identifier already had a record.  The old
    record is then replaced, and if the identifier was listed the consistency
    of the state is lost. *)
Theorem v1_admission_appends_unchecked env w req :
  method req = "POST" ->
  body_of req ≠ JNull ->
  set_at env (length (puts w)) = None ->
  let state := view_legacy (blob w) in
  let taskId := id_at env (minted w) in
  let task :=
    {| id := taskId; status := StQueued; createdAt := now_at env (ticks w);
       startedAt := None; completedAt := None;
       data := Some (or_empty (data_member (body_of req))) |} in
  let after := AdmissionV1.queue_task req env w in
  after.1
    = Done {| code := 200;
              body := Accepted taskId (S (length (queue state))) |} ∧
  blob after.2
    = Some {| queue := queue state ++ [taskId];
              processing := processing state;
              completed := completed state;
              tasks := <[taskId := task]> (tasks state);
              rateLimitHistory := rateLimitHistory state |} ∧
  length (puts after.2) = S (length (puts w)) ∧
  (taskId ∈ listed state → ¬ consistent_blob (blob after.2)).
Proof.
  intros Hpost Hbody Hset state taskId task after. subst after.
  destruct (AdmissionV1.queue_task req env w) as [r after] eqn:Hrun.
  cbn [fst snd].
  unfold AdmissionV1.queue_task in Hrun. rewrite Hpost in Hrun.
  destruct (decide _) as [Hne|_]; [contradiction|].
  unfold try_catch at 1, bind at 1, mint_id at 1 in Hrun.
  unfold bind at 1, Date_now at 1 in Hrun. world in Hrun.
  unfold bind at 1 in Hrun. fold (body_of req) in Hrun.
  rewrite body_data_run in Hrun by exact Hbody.
  unfold bind at 1 in Hrun. rewrite getQueueState_legacy_run in Hrun.
  world in Hrun. fold state taskId in Hrun.
  unfold bind at 1, saveQueueState, store_set in Hrun. world in Hrun.
  rewrite Hset in Hrun. cbn [processing queue] in Hrun.
  assert (Hblob : blob after
                  = Some {| queue := queue state ++ [taskId];
                            processing := processing state;
                            completed := completed state;
                            tasks := <[taskId := task]> (tasks state);
                            rateLimitHistory := rateLimitHistory state |}
                  ∧ r = Done {| code := 200;
                                body := Accepted taskId
                                          (S (length (queue state))) |}
                  ∧ length (puts after) = S (length (puts w))).
  { unfold bind, try_catch, send_wake, log, ret in Hrun. world in Hrun.
    destruct (decide (length (processing state)
                      < Ceiling.MAX_CONCURRENCY)%nat);
      cbv beta iota in Hrun; world in Hrun;
      [destruct (send_at env (sends w))|];
      cbv beta iota in Hrun; injection Hrun as <- <-; world;
      rewrite !length_app; cbn [length]; rewrite !Nat.add_1_r;
      repeat split; reflexivity. }
  destruct Hblob as (Hblob & Hr & Hputs).
  split; [exact Hr|]. split; [exact Hblob|]. split; [exact Hputs|].
  intros Hin [_ Hnodup]. rewrite Hblob in Hnodup.
  unfold listed in Hnodup, Hin. cbn [view_legacy queue processing completed]
    in Hnodup.
  rewrite <- app_assoc in Hnodup. cbn [app] in Hnodup.
  apply NoDup_app in Hnodup as (Hq & Hdisj & Hrest).
  apply NoDup_cons in Hrest as [Hnotin _].
  apply elem_of_app in Hin as [Hin|Hin].
  - apply (Hdisj taskId Hin). left.
  - exact (Hnotin Hin).
Qed.

Lemma v1_admission_appends_unchecked_witness :
  let after :=
    AdmissionV1.queue_task (post_request None) calm
      (fresh_world (Some collision_ahead)) in
  after.1
    = Done {| code := 200; body := Accepted "task-1700000000000-0" 2 |} ∧
  (queue <$> blob after.2)
    = Some ["task-1700000000000-0"; "task-1700000000000-0"] ∧
  ¬ consistent_blob (blob after.2).
Proof.
  destruct (v1_admission_appends_unchecked calm
              (fresh_world (Some collision_ahead)) (post_request None))
    as (Hres & Hblob & _ & Hbroken).
  - reflexivity.
  - discriminate.
  - reflexivity.
  - cbv zeta. split; [exact Hres|]. split.
    + rewrite Hblob. vm_compute. reflexivity.
    + apply Hbroken. vm_compute. left.
Defined.

(** X11.  When the store rejects the single write of the first admission
    endpoint, it answers 500 with the message of the rejection; nothing is
    retried, no wake signal is sent and the blob is what it was. *)
Theorem v1_admission_gives_up_at_once env w req e :
  method req = "POST" ->
  body_of req ≠ JNull ->
  set_at env (length (puts w)) = Some e ->
  ∃ w',
    AdmissionV1.queue_task req env w
      = (Done {| code := 500; body := Refused (error_message e) |}, w') ∧
    blob w' = blob w ∧ length (puts w') = S (length (puts w)) ∧
    sends w' = sends w ∧ naps w' = naps w.
Proof.
  intros Hpost Hbody Hset.
  unfold AdmissionV1.queue_task. rewrite Hpost.
  destruct (decide _) as [Hne|_]; [contradiction|].
  unfold try_catch at 1, bind at 1, mint_id at 1.
  unfold bind at 1, Date_now at 1. world.
  unfold bind at 1. fold (body_of req).
  rewrite body_data_run by exact Hbody.
  unfold bind at 1. rewrite getQueueState_legacy_run. world.
  unfold bind at 1, saveQueueState, store_set. world. rewrite Hset.
  unfold bind, log, ret. eexists. split; [reflexivity|]. world.
  rewrite length_app, Nat.add_1_r. tauto.
Qed.

Lemma v1_admission_gives_up_at_once_witness :
  ∃ w',
    AdmissionV1.queue_task (post_request None) first_write_lost
      (fresh_world (Some one_pending))
      = (Done {| code := 500; body := Refused "blob store unavailable" |},
         w') ∧
    blob w' = Some one_pending.
Proof.
  destruct (v1_admission_gives_up_at_once first_write_lost
              (fresh_world (Some one_pending)) (post_request None)
              (ErrorObj "blob store unavailable"))
    as (w' & Hrun & Hblob & _).
  - reflexivity.
  - discriminate.
  - reflexivity.
  - exists w'. split; [exact Hrun|exact Hblob].
Defined.

(** ** The status projections *)

Lemma resolve_view b ids : resolve (view b) ids = resolve (view_legacy b) ids.
Proof. unfold resolve. rewrite view_legacy_tasks. reflexivity. Qed.

Lemma status_report_run env w req :
  method req = "GET" ->
  let state := view (blob w) in
  ∃ r w',
    queue_status req env w
      = (Done {| code := 200; body := Reported r |}, w') ∧
    r_queued r = resolve state (queue state) ∧
    r_processing r = resolve state (processing state) ∧
    r_completed r = resolve state (last50 (completed state)) ∧
    stats r
      = {| queuedCount := length (resolve state (queue state));
           processingCount := length (resolve state (processing state));
           completedCount :=
             length (resolve state (last50 (completed state)));
           totalTasks := size (tasks state) |}.
Proof.
  intros Hget state. unfold queue_status. rewrite Hget.
  destruct (decide _) as [Hne|_]; [contradiction|].
  unfold try_catch, bind at 1. rewrite getQueueState_run.
  unfold bind at 1, Date_now at 1. cbv beta iota.
  unfold bind at 1. rewrite history_view_run. world.
  unfold ret. do 2 eexists. split; [reflexivity|].
  cbn [r_queued r_processing r_completed stats]. tauto.
Qed.

Lemma legacy_status_report_run env w req :
  method req = "GET" ->
  let state := view_legacy (blob w) in
  ∃ l,
    queue_status_legacy req env w
      = (Done {| l_code := 200; l_body := LReported l |}, w) ∧
    l_queued l = resolve state (queue state) ∧
    l_processing l = resolve state (processing state) ∧
    l_completed l = resolve state (last50 (completed state)) ∧
    l_stats l
      = {| queuedCount := length (resolve state (queue state));
           processingCount := length (resolve state (processing state));
           completedCount :=
             length (resolve state (last50 (completed state)));
           totalTasks := size (tasks state) |}.
Proof.
  intros Hget state. unfold queue_status_legacy. rewrite Hget.
  destruct (decide _) as [Hne|_]; [contradiction|].
  unfold try_catch, bind at 1. rewrite getQueueState_legacy_run.
  unfold ret. eexists. split; [reflexivity|].
  cbn [l_queued l_processing l_completed l_stats]. tauto.
Qed.

(** X12.  On every blob the status projection of the rate-limit era reports
    the same three task lists and the same counts as the one of the
    concurrency era; it only adds the rate-limit block. *)
Theorem status_versions_agree env w req :
  method req = "GET" ->
  ∃ r l w1 w2,
    queue_status req env w
      = (Done {| code := 200; body := Reported r |}, w1) ∧
    queue_status_legacy req env w
      = (Done {| l_code := 200; l_body := LReported l |}, w2) ∧
    l_queued l = r_queued r ∧ l_processing l = r_processing r ∧
    l_completed l = r_completed r ∧ l_stats l = stats r.
Proof.
  intros Hget.
  destruct (status_report_run env w req Hget)
    as (r & w1 & Hr & Hq & Hp & Hc & Hs).
  destruct (legacy_status_report_run env w req Hget)
    as (l & Hl & Hlq & Hlp & Hlc & Hls).
  exists r, l, w1, w. split; [exact Hr|]. split; [exact Hl|].
  rewrite Hq, Hp, Hc, Hs, Hlq, Hlp, Hlc, Hls.
  rewrite !resolve_view, view_legacy_queue, view_legacy_processing,
    view_legacy_completed, view_legacy_tasks.
  repeat split; reflexivity.
Qed.

Lemma status_versions_agree_witness :
  ∃ r l w1 w2,
    queue_status get_request calm (fresh_world (Some busy))
      = (Done {| code := 200; body := Reported r |}, w1) ∧
    queue_status_legacy get_request calm (fresh_world (Some busy))
      = (Done {| l_code := 200; l_body := LReported l |}, w2) ∧
    l_stats l = stats r.
Proof.
  destruct (status_versions_agree calm (fresh_world (Some busy)) get_request
              eq_refl)
    as (r & l & w1 & w2 & Hr & Hl & _ & _ & _ & Hstats).
  exists r, l, w1, w2. split; [exact Hr|]. split; [exact Hl|exact Hstats].
Defined.

Lemma resolve_length state ids :
  (length (resolve state ids) <= length ids)%nat.
Proof.
  unfold resolve. induction ids as [|i ids IH]; [reflexivity|].
  cbn [omap list_omap]. destruct (tasks state !! i); simpl; lia.
Qed.

Lemma resolve_length_recorded state ids :
  Forall (λ i, is_Some (tasks state !! i)) ids ->
  length (resolve state ids) = length ids.
Proof.
  unfold resolve. induction 1 as [|i ids [t Ht] _ IH]; [reflexivity|].
  cbn [omap list_omap]. rewrite Ht. simpl. rewrite IH. reflexivity.
Qed.

Lemma last50_length l : length (last50 l) = (length l `min` 50)%nat.
Proof. unfold last50. rewrite length_drop. lia. Qed.

Lemma last50_subset (P : string → Prop) l : Forall P l -> Forall P (last50 l).
Proof. unfold last50. apply Forall_drop. Qed.

(** X13.  The status projection never reports more tasks than are listed
    and at most 50 completed ones: an identifier without a record is left
    out without notice.  The counts are the lengths of the reported lists,
    and when every listed identifier has its record they are the length of
    pending, the length of in flight and the smaller of 50 and the length of
    completed. *)
Theorem status_counts_bounded env w req :
  method req = "GET" ->
  let state := view (blob w) in
  ∃ r w',
    queue_status req env w
      = (Done {| code := 200; body := Reported r |}, w') ∧
    queuedCount (stats r) = length (r_queued r) ∧
    processingCount (stats r) = length (r_processing r) ∧
    completedCount (stats r) = length (r_completed r) ∧
    (queuedCount (stats r) <= length (queue state))%nat ∧
    (processingCount (stats r) <= length (processing state))%nat ∧
    (completedCount (stats r) <= 50)%nat ∧
    (recorded state →
     queuedCount (stats r) = length (queue state) ∧
     processingCount (stats r) = length (processing state) ∧
     completedCount (stats r) = (length (completed state) `min` 50)%nat).
Proof.
  intros Hget state.
  destruct (status_report_run env w req Hget)
    as (r & w' & Hr & Hq & Hp & Hc & Hs).
  fold state in Hq, Hp, Hc, Hs.
  exists r, w'. split; [exact Hr|].
  rewrite Hq, Hp, Hc, Hs.
  cbn [queuedCount processingCount completedCount].
  split; [reflexivity|]. split; [reflexivity|]. split; [reflexivity|].
  split; [apply resolve_length|]. split; [apply resolve_length|]. split.
  - etransitivity; [apply resolve_length|]. rewrite last50_length. lia.
  - intros Hrec. unfold recorded, listed in Hrec.
    apply Forall_app in Hrec as [Hq' Hpc].
    apply Forall_app in Hpc as [Hp' Hc'].
    rewrite !resolve_length_recorded; try assumption.
    + rewrite last50_length. tauto.
    + apply last50_subset. exact Hc'.
Qed.

Lemma status_counts_bounded_witness :
  ∃ r w',
    queue_status get_request calm (fresh_world (Some sixty_done))
      = (Done {| code := 200; body := Reported r |}, w') ∧
    queuedCount (stats r) = 1%nat ∧ completedCount (stats r) = 50%nat.
Proof.
  destruct (status_counts_bounded calm (fresh_world (Some sixty_done))
              get_request eq_refl)
    as (r & w' & Hrun & _).
  exists r, w'. split; [exact Hrun|].
  vm_compute in Hrun. injection Hrun as <- <-. vm_compute. tauto.
Defined.

(** ** Clear, continued *)

(** X14.  When the store rejects the write of clear, the endpoint answers
    500 with the message of the rejection, or with "Unknown error" when what
    was thrown is no Error, and the blob is what it was. *)
Theorem clear_rejected_keeps_state env w req e :
  method req = "POST" ->
  set_at env (length (puts w)) = Some e ->
  ∃ w',
    clear_queue req env w
      = (Done {| code := 500;
                 body := Refused match e with
                                 | ErrorObj message => message
                                 | NonError => "Unknown error"
                                 end |}, w') ∧
    blob w' = blob w ∧ console w' = console w ++ [LogClearError e].
Proof.
  intros Hpost Hset. unfold clear_queue. rewrite Hpost.
  destruct (decide _) as [Hne|_]; [contradiction|].
  unfold try_catch, bind at 1, store_set. rewrite Hset.
  unfold bind, log, ret. eexists. split; [reflexivity|]. world. tauto.
Qed.

Lemma clear_rejected_keeps_state_witness :
  ∃ w',
    clear_queue (post_request None) store_down (fresh_world (Some busy))
      = (Done {| code := 500; body := Refused "blob store unavailable" |},
         w') ∧
    blob w' = Some busy.
Proof.
  destruct (clear_rejected_keeps_state store_down (fresh_world (Some busy))
              (post_request None) (ErrorObj "blob store unavailable")
              eq_refl eq_refl)
    as (w' & Hrun & Hblob & _).
  exists w'. split; [exact Hrun|exact Hblob].
Defined.

(** ** Admission and the dispatcher together *)

(** X15.  First in, first out across an admission and a turn: after a task
    is admitted behind a non-empty pending list, the next turn of the
    concurrency variant (room under the ceiling, writes taken) starts the
    task that was at the head, not the new one, and leaves the new
    identifier at the tail of pending. *)
Theorem admission_then_turn_is_fifo env w fuel req head rest task :
  method req = "POST" ->
  body_of req ≠ JNull ->
  quiet env ->
  (0 < fuel)%nat ->
  queue (view_legacy (blob w)) = head :: rest ->
  tasks (view_legacy (blob w)) !! head = Some task ->
  (length (processing (view_legacy (blob w))) < Ceiling.MAX_CONCURRENCY)%nat ->
  tasks (view_legacy (blob w)) !! id_at env (minted w) = None ->
  set_at env (length (puts w)) = None ->
  set_at env (S (length (puts w))) = None ->
  let admitted := (Admission.queue_task fuel req env w).2 in
  ∃ w2,
    Ceiling.startNext env admitted = (Done (Some head), w2) ∧
    (queue <$> blob w2) = Some (rest ++ [id_at env (minted w)]) ∧
    (processing <$> blob w2)
      = Some (processing (view_legacy (blob w)) ++ [head]).
Proof.
  intros Hpost Hbody Hquiet Hfuel Hq Ht Hroom Hfresh Hs1 Hs2 admitted.
  destruct (admission_after_rejections env w fuel req 0)
    as (_ & Hblob & Hputs & _); try assumption.
  { lia. }
  { intros j Hj. lia. }
  { rewrite Nat.add_0_r. exact Hs1. }
  fold admitted in Hblob, Hputs.
  assert (Hne : id_at env (minted w) ≠ head).
  { intros Heq. rewrite Heq in Hfresh. rewrite Hfresh in Ht. discriminate. }
  edestruct (ceiling_startNext_accepted env admitted head
               (rest ++ [id_at env (minted w)]) task)
    as (w2 & Hrun & Hblob2 & _).
  - rewrite Hblob. cbn [view_legacy processing]. exact Hroom.
  - rewrite Hblob. cbn [view_legacy queue]. rewrite Hq. reflexivity.
  - rewrite Hblob. cbn [view_legacy tasks].
    rewrite lookup_insert_ne by exact Hne. exact Ht.
  - rewrite Hputs. replace (length (puts w) + 0 + 1)%nat
      with (S (length (puts w))) by lia. exact Hs2.
  - exists w2. split; [exact Hrun|]. rewrite Hblob2, Hblob.
    cbn [view_legacy queue processing fmap option_fmap option_map].
    split; reflexivity.
Qed.

Lemma admission_then_turn_is_fifo_witness :
  ∃ w2,
    Ceiling.startNext calm
      (Admission.queue_task 5 (post_request None) calm
         (fresh_world (Some busy))).2
      = (Done (Some "task-c"), w2) ∧
    (queue <$> blob w2) = Some ["task-d"; "task-1700000000000-0"].
Proof.
  destruct (admission_then_turn_is_fifo calm (fresh_world (Some busy)) 5
              (post_request None) "task-c" ["task-d"] (sample_task "task-c"))
    as (w2 & Hrun & Hq & _).
  - reflexivity.
  - discriminate.
  - intros n b. reflexivity.
  - lia.
  - reflexivity.
  - vm_compute. reflexivity.
  - vm_compute. lia.
  - vm_compute. reflexivity.
  - reflexivity.
  - reflexivity.
  - exists w2. split; [exact Hrun|exact Hq].
Defined.

(** ** Consistency in the other variants *)

Lemma rl_retry_loop_keeps env fuel :
  others_consistent env ->
  ∀ retries taskId task state,
    keeps_consistency env
      (AdmissionRL.retry_loop fuel retries taskId task state).
Proof.
  intros Hrely. induction fuel as [|fuel IH]; intros retries taskId task state.
  - destruct retries; intros w Hw; exact Hw.
  - destruct retries as [|retries']; [intros w Hw; exact Hw|].
    cbn [AdmissionRL.retry_loop].
    apply consistency_read. intros st Hst.
    destruct (tasks st !! taskId) as [found|] eqn:Hlook.
    + apply consistency_bind; [blob_kept|intros taskId']. apply IH.
    + apply consistency_try.
      * apply consistency_bind; [|intros ?; blob_kept].
        apply consistency_save. apply append_keeps; assumption.
      * intros e. apply consistency_bind; [|intros ?; apply IH].
        destruct (decide _); [apply consistency_sleep; exact Hrely|blob_kept].
Qed.

Lemma rl_queue_task_keeps env fuel req :
  others_consistent env ->
  keeps_consistency env (AdmissionRL.queue_task fuel req).
Proof.
  intros Hrely. unfold AdmissionRL.queue_task.
  destruct (decide _); [blob_kept|].
  apply consistency_try; [|intros e; blob_kept].
  apply consistency_bind; [blob_kept|intros taskId].
  apply consistency_bind; [blob_kept|intros created].
  apply consistency_bind; [blob_kept|intros d].
  apply consistency_read. intros state _.
  apply consistency_bind; [apply rl_retry_loop_keeps; exact Hrely|].
  intros [[tid st] success]. destruct success; blob_kept.
Qed.

Lemma ceiling_startNext_keeps env : keeps_consistency env Ceiling.startNext.
Proof.
  unfold Ceiling.startNext.
  apply consistency_read_legacy. intros state Hstate.
  destruct (decide _); [blob_kept|].
  destruct (queue state) as [|taskId rest] eqn:Hq; [blob_kept|].
  destruct (tasks state !! taskId) as [task|]; [|blob_kept].
  apply consistency_bind; [blob_kept|intros started].
  apply consistency_bind; [|intros ?; blob_kept].
  apply consistency_save. apply claim_keeps; assumption.
Qed.

Lemma ceiling_finish_keeps env w taskId :
  consistent_blob (blob w) ->
  taskId ∈ processing (view_legacy (blob w)) ->
  consistent_blob (blob (Ceiling.finish taskId env w).2).
Proof.
  intros Hw Hin.
  unfold Ceiling.finish, bind at 1. rewrite getQueueState_legacy_run.
  destruct (tasks (view_legacy (blob w)) !! taskId) as [task|] eqn:Htask.
  - unfold bind at 1, bind at 1, Date_now at 1, ret at 1.
    match goal with
    | |- consistent_blob (blob (?c env ?w0).2) =>
        cut (keeps_consistency env c); [intros Hk; apply Hk; exact Hw|]
    end.
    apply consistency_bind;
      [apply consistency_save; apply complete_keeps; assumption|intros ?].
    apply consistency_bind; [blob_kept|intros ?].
    apply consistency_read_legacy. intros finalState _.
    destruct (decide _); [|blob_kept].
    destruct (decide _); blob_kept.
  - destruct Hw as [Hrec _]. unfold recorded, listed in Hrec.
    rewrite Forall_forall in Hrec.
    destruct (Hrec taskId) as [task Hsome].
    { apply elem_of_app. right. apply elem_of_app. left. exact Hin. }
    rewrite Htask in Hsome. discriminate.
Qed.

(** X16.  The concurrency variant of the dispatcher and the rate-limit era
    admission keep the invariant too (every listed identifier has a record,
    none occurs twice in pending, in flight and completed together), given
    that the others keep it: the start-claim of the concurrency variant, its
    completion of a task the re-read state lists in flight, and the
    admission with the retries of the rate-limit era. *)
Theorem sibling_operations_keep_consistency env w fuel req taskId :
  others_consistent env ->
  consistent_blob (blob w) ->
  consistent_blob (blob (AdmissionRL.queue_task fuel req env w).2) ∧
  consistent_blob (blob (Ceiling.startNext env w).2) ∧
  (taskId ∈ processing (view_legacy (blob w)) →
   consistent_blob (blob (Ceiling.finish taskId env w).2)).
Proof.
  intros Hrely Hw. split; [|split].
  - apply rl_queue_task_keeps; assumption.
  - apply ceiling_startNext_keeps; assumption.
  - intros Hin. apply ceiling_finish_keeps; assumption.
Qed.

Lemma sibling_operations_keep_consistency_witness :
  consistent_blob
    (blob (AdmissionRL.queue_task 5 (post_request None) calm
             (fresh_world (Some one_started))).2) ∧
  consistent_blob
    (blob (Ceiling.finish "task-a" calm (fresh_world (Some one_started))).2).
Proof.
  destruct (sibling_operations_keep_consistency calm
              (fresh_world (Some one_started)) 5 (post_request None) "task-a")
    as (Hqueued & _ & Hfinish).
  - intros n b Hb. exact Hb.
  - exact one_started_consistent.
  - split; [exact Hqueued|]. apply Hfinish. left.
Defined.

(** A start that returns an identifier has put it in flight. *)
Lemma startNext_in_flight env w taskId w1 :
  RateLimit.startNext env w = (Done (Some taskId), w1) ->
  taskId ∈ processing (view (blob w1)).
Proof.
  unfold RateLimit.startNext, bind at 1. rewrite getQueueState_run.
  destruct (queue (view (blob w))) as [|head rest]; [discriminate|].
  unfold bind at 1, Date_now at 1. cbv beta iota.
  unfold bind at 1. rewrite history_view_run. world.
  destruct (decide _); [discriminate|].
  destruct (tasks (view (blob w)) !! head) as [task|]; [|discriminate].
  unfold bind, Date_now, saveQueueState, store_set, log, ret. world.
  destruct (set_at env (length (puts w))); [discriminate|].
  intros [= <- <-]. world. cbn [view rateLimitHistory processing].
  apply elem_of_app. right. left.
Qed.

(** X17.  With nobody else writing, a whole turn of the rate-limit variant
    keeps the invariant, whatever the store does with its writes and whether
    or not the wake signal is delivered: the task it completes is the one it
    has just put in flight. *)
Theorem quiet_turn_keeps_consistency env w :
  quiet env ->
  consistent_blob (blob w) ->
  consistent_blob (blob (RateLimit.processNextTask env w).2).
Proof.
  intros Hquiet Hw.
  unfold RateLimit.processNextTask, bind at 1.
  pose proof (startNext_keeps env w Hw) as Hstart.
  destruct (RateLimit.startNext env w) as [[[taskId|]|e|] w1] eqn:Hrun;
    cbn [snd] in Hstart; try exact Hstart.
  unfold bind at 1, sleep at 1.
  apply finish_keeps; world.
  - rewrite Hquiet. exact Hstart.
  - rewrite Hquiet. exact (startNext_in_flight env w taskId w1 Hrun).
Qed.

Lemma quiet_turn_keeps_consistency_witness :
  consistent_blob
    (blob (RateLimit.processNextTask first_write_lost
             (fresh_world (Some one_pending))).2) ∧
  consistent_blob
    (blob (RateLimit.processNextTask calm (fresh_world (Some one_pending))).2).
Proof.
  split.
  - apply (quiet_turn_keeps_consistency first_write_lost
             (fresh_world (Some one_pending))).
    + intros n b. reflexivity.
    + exact one_pending_consistent.
  - apply (quiet_turn_keeps_consistency calm (fresh_world (Some one_pending))).
    + intros n b. reflexivity.
    + exact one_pending_consistent.
Defined.

(** ** The concurrency dispatcher, continued *)

Lemma ceiling_finish_as_tail env w taskId :
  Ceiling.finish taskId env w
  = ceiling_completion_tail taskId
      (completion_of (view_legacy (blob w)) taskId (now_at env (ticks w)))
      env (world_at_completion (view_legacy (blob w)) taskId w).
Proof.
  unfold Ceiling.finish, completion_of, world_at_completion, bind at 1.
  rewrite getQueueState_legacy_run.
  destruct (tasks (view_legacy (blob w)) !! taskId); reflexivity.
Qed.

Lemma ceiling_completion_tail_wake env w0 taskId marked :
  set_at env (length (puts w0)) = None ->
  let due :=
    queue marked ≠ [] ∧
    (length (processing marked) < Ceiling.MAX_CONCURRENCY)%nat in
  let after := ceiling_completion_tail taskId marked env w0 in
  blob after.2 = Some marked ∧
  (due →
   sends after.2 = S (sends w0) ∧
   after.1 = match send_at env (sends w0) with
             | None => Done tt
             | Some e => Threw e
             end) ∧
  (¬ due → sends after.2 = sends w0 ∧ after.1 = Done tt).
Proof.
  intros Hset due after. subst after.
  destruct (ceiling_completion_tail taskId marked env w0) as [r after]
    eqn:Hrun.
  cbn [fst snd].
  unfold ceiling_completion_tail, bind at 1, saveQueueState, store_set in Hrun.
  rewrite Hset in Hrun.
  unfold bind at 1, log at 1 in Hrun. unfold bind at 1 in Hrun.
  rewrite getQueueState_legacy_run in Hrun. world in Hrun.
  cbn [view_legacy] in Hrun.
  destruct (decide (0 < length (queue marked))%nat) as [Hwork|Hidle].
  - destruct (decide _) as [Hroom|Hfull].
    + unfold send_wake in Hrun. world in Hrun.
      destruct (send_at env (sends w0)); injection Hrun as <- <-; world.
      * split; [reflexivity|]. split; [intros _; split; reflexivity|].
        intros Hnot. exfalso. apply Hnot. split; [|exact Hroom].
        destruct (queue marked); [simpl in Hwork; lia|discriminate].
      * split; [reflexivity|]. split; [intros _; split; reflexivity|].
        intros Hnot. exfalso. apply Hnot. split; [|exact Hroom].
        destruct (queue marked); [simpl in Hwork; lia|discriminate].
    + unfold ret in Hrun. injection Hrun as <- <-. world.
      split; [reflexivity|]. split.
      * intros [_ Hroom]. contradiction.
      * intros _. split; reflexivity.
  - unfold ret in Hrun. injection Hrun as <- <-. world.
    split; [reflexivity|]. split.
    + intros [Hq _]. exfalso. apply Hidle.
      destruct (queue marked); [contradiction|simpl; lia].
    + intros _. split; reflexivity.
Qed.

(** X18.  The completion of the concurrency variant, its write taken,
    persists the re-read state with the first occurrence of the identifier
    gone from in flight, and sends the wake signal exactly when pending is
    non-empty and fewer than six identifiers are then in flight; the turn
    ends as the signal does, and returns without sending otherwise. *)
Theorem ceiling_finish_wakes_when_room env w taskId :
  set_at env (length (puts w)) = None ->
  let state := view_legacy (blob w) in
  let still := splice_first taskId (processing state) in
  let due :=
    queue state ≠ [] ∧ (length still < Ceiling.MAX_CONCURRENCY)%nat in
  let after := Ceiling.finish taskId env w in
  (processing <$> blob after.2) = Some still ∧
  (queue <$> blob after.2) = Some (queue state) ∧
  (due →
   sends after.2 = S (sends w) ∧
   after.1 = match send_at env (sends w) with
             | None => Done tt
             | Some e => Threw e
             end) ∧
  (¬ due → sends after.2 = sends w ∧ after.1 = Done tt).
Proof.
  intros Hs state still due after. subst after due still.
  rewrite ceiling_finish_as_tail. fold state.
  pose proof (ceiling_completion_tail_wake env
                (world_at_completion state taskId w) taskId
                (completion_of state taskId (now_at env (ticks w))))
    as Htail.
  unfold world_at_completion, completion_of in *.
  destruct (tasks state !! taskId) as [task|]; world in Htail;
    cbn [queue processing] in Htail;
    destruct (Htail Hs) as (Hblob & Hdue & Hnot);
    rewrite Hblob; cbn [fmap option_fmap option_map queue processing];
    (split; [reflexivity|]); (split; [reflexivity|]);
    (split; [exact Hdue|exact Hnot]).
Qed.

Lemma ceiling_finish_wakes_when_room_witness :
  let freed := Ceiling.finish "task-a" calm
                 (fresh_world (Some six_in_flight)) in
  let stranger := Ceiling.finish "task-x" calm
                    (fresh_world (Some six_in_flight)) in
  (sends freed.2 = 1%nat ∧ freed.1 = Done tt) ∧
  (sends stranger.2 = 0%nat ∧ stranger.1 = Done tt).
Proof.
  split.
  - apply (ceiling_finish_wakes_when_room calm
             (fresh_world (Some six_in_flight)) "task-a"); [reflexivity|].
    split; [discriminate|vm_compute; lia].
  - apply (ceiling_finish_wakes_when_room calm
             (fresh_world (Some six_in_flight)) "task-x"); [reflexivity|].
    intros [_ Hroom]. vm_compute in Hroom. lia.
Defined.

(** ** Identifier collisions *)

(** The retry loop when the candidate and the next [c - 1] minted identifiers
    have records and the one after them has none: the loop mints [c] times,
    spends no retry and writes under the new identifier only. *)
Lemma retry_loop_skips_collisions c :
  ∀ fuel retries taskId task state env w,
    (0 < retries)%nat -> (c < fuel)%nat ->
    (c = 0%nat → tasks (view_legacy (blob w)) !! taskId = None) ->
    (c ≠ 0%nat → is_Some (tasks (view_legacy (blob w)) !! taskId)) ->
    (∀ j, (S j < c)%nat →
          is_Some (tasks (view_legacy (blob w)) !! id_at env (minted w + j))) ->
    (c ≠ 0%nat →
     tasks (view_legacy (blob w)) !! id_at env (minted w + c - 1) = None) ->
    set_at env (length (puts w)) = None ->
    let final :=
      match c with
      | O => taskId
      | S c' => id_at env (minted w + c')
      end in
    let task' := match c with O => task | S _ => with_id task final end in
    ∃ w',
      Admission.retry_loop fuel retries taskId task state env w
        = (Done (final,
                 Some (appended (view_legacy (blob w)) final task'), true),
           w') ∧
      blob w' = Some (appended (view_legacy (blob w)) final task') ∧
      puts w' = puts w ++ [appended (view_legacy (blob w)) final task'] ∧
      minted w' = (minted w + c)%nat ∧ naps w' = naps w ∧
      sends w' = sends w.
Proof.
  induction c as [|c IH];
    intros fuel retries taskId task state env w Hretries Hfuel Hfresh Htaken
      Hmid Hlast Hset final task'.
  - destruct retries as [|retries']; [lia|]. destruct fuel as [|fuel]; [lia|].
    cbn [Admission.retry_loop].
    unfold bind at 1. rewrite getQueueState_legacy_run, (Hfresh eq_refl).
    unfold try_catch, bind, saveQueueState, store_set, ret. rewrite Hset.
    eexists. split; [reflexivity|]. world.
    rewrite Nat.add_0_r. repeat split; reflexivity.
  - destruct retries as [|retries']; [lia|]. destruct fuel as [|fuel]; [lia|].
    cbn [Admission.retry_loop].
    unfold bind at 1. rewrite getQueueState_legacy_run.
    destruct (Htaken ltac:(lia)) as [old Hold]. rewrite Hold.
    unfold bind at 1, mint_id at 1.
    match goal with
    | |- context [Admission.retry_loop fuel (S retries') ?i ?t ?s env ?wn] =>
        destruct (IH fuel (S retries') i t s env wn)
          as (w' & Hrun & Hblob & Hputs & Hminted & Hnaps & Hsends)
    end; world.
    + lia.
    + lia.
    + intros ->. specialize (Hlast ltac:(lia)).
      replace (minted w + 1 - 1)%nat with (minted w) in Hlast by lia.
      exact Hlast.
    + intros Hc. specialize (Hmid 0%nat ltac:(lia)).
      rewrite Nat.add_0_r in Hmid. exact Hmid.
    + intros j Hj. specialize (Hmid (S j) ltac:(lia)).
      replace (S (minted w) + j)%nat with (minted w + S j)%nat by lia.
      exact Hmid.
    + intros Hc. specialize (Hlast ltac:(lia)).
      replace (S (minted w) + c - 1)%nat with (minted w + S c - 1)%nat by lia.
      exact Hlast.
    + exact Hset.
    + world in Hrun. world in Hblob. world in Hputs. world in Hminted.
      world in Hnaps. world in Hsends.
      assert (Hsame :
                match c with
                | O => id_at env (minted w)
                | S c' => id_at env (S (minted w) + c')
                end = final).
      { unfold final. destruct c as [|c']; [rewrite Nat.add_0_r|];
          [reflexivity|]. f_equal. lia. }
      assert (Htask :
                match c with
                | O => with_id task (id_at env (minted w))
                | S _ =>
                    with_id (with_id task (id_at env (minted w)))
                      match c with
                      | O => id_at env (minted w)
                      | S c' => id_at env (S (minted w) + c')
                      end
                end = task').
      { unfold task'. rewrite Hsame. destruct c; [|reflexivity].
        unfold final. rewrite Nat.add_0_r. reflexivity. }
      rewrite Htask, Hsame in Hrun, Hblob, Hputs.
      exists w'. split; [exact Hrun|]. split; [exact Hblob|].
      split; [exact Hputs|]. repeat split; [lia|exact Hnaps|exact Hsends].
Qed.

(** X19.  An identifier that already has a record is never written over by
    the admission with retries: while the minted identifier collides a new
    one is minted, without a write and without spending a retry.  With [c]
    collisions before a new identifier and the write taken, the answer names
    the identifier minted last, one write was offered, and every record that
    was stored is still stored unchanged. *)
Theorem admission_skips_colliding_identifiers env w fuel req c :
  method req = "POST" ->
  body_of req ≠ JNull ->
  (c < fuel)%nat ->
  (∀ j, (j < c)%nat →
        is_Some (tasks (view_legacy (blob w)) !! id_at env (minted w + j))) ->
  tasks (view_legacy (blob w)) !! id_at env (minted w + c) = None ->
  set_at env (length (puts w)) = None ->
  let state := view_legacy (blob w) in
  let taskId := id_at env (minted w + c) in
  let after := Admission.queue_task fuel req env w in
  after.1
    = Done {| code := 200;
              body := Accepted taskId (S (length (queue state))) |} ∧
  (queue <$> blob after.2) = Some (queue state ++ [taskId]) ∧
  length (puts after.2) = S (length (puts w)) ∧
  minted after.2 = S (minted w + c) ∧
  ∀ other old,
    tasks state !! other = Some old →
    (λ s, tasks s !! other) <$> blob after.2 = Some (Some old).
Proof.
  intros Hpost Hbody Hfuel Htaken Hfresh Hset state taskId after.
  subst after.
  destruct (Admission.queue_task fuel req env w) as [r after] eqn:Hrun.
  cbn [fst snd].
  unfold Admission.queue_task in Hrun. rewrite Hpost in Hrun.
  destruct (decide _) as [Hne|_]; [contradiction|].
  unfold try_catch at 1, bind at 1, mint_id at 1 in Hrun.
  unfold bind at 1, Date_now at 1 in Hrun. world in Hrun.
  unfold bind at 1 in Hrun. fold (body_of req) in Hrun.
  rewrite body_data_run in Hrun by exact Hbody.
  unfold bind at 1 in Hrun.
  match type of Hrun with
  | context [Admission.retry_loop fuel 5 ?i ?t ?s env ?w0] =>
      destruct (retry_loop_skips_collisions c fuel 5 i t s env w0)
        as (wl & Hloop & Hblob & Hputs & Hminted & _)
  end; world.
  - lia.
  - exact Hfuel.
  - intros ->. rewrite Nat.add_0_r in Hfresh. exact Hfresh.
  - intros Hc. specialize (Htaken 0%nat ltac:(lia)).
    rewrite Nat.add_0_r in Htaken. exact Htaken.
  - intros j Hj. specialize (Htaken (S j) ltac:(lia)).
    replace (S (minted w) + j)%nat with (minted w + S j)%nat by lia.
    exact Htaken.
  - intros Hc. replace (S (minted w) + c - 1)%nat with (minted w + c)%nat
      by lia. exact Hfresh.
  - exact Hset.
  - world in Hloop. world in Hblob. world in Hputs. world in Hminted.
    assert (Hfinal :
              match c with
              | O => id_at env (minted w)
              | S c' => id_at env (S (minted w) + c')
              end = taskId).
    { unfold taskId. destruct c as [|c']; [rewrite Nat.add_0_r|];
        [reflexivity|]. f_equal. lia. }
    rewrite Hfinal in Hloop, Hblob, Hputs. fold state in Hloop, Hblob, Hputs.
    rewrite Hloop in Hrun.
    unfold bind at 1 in Hrun. cbn [appended processing queue] in Hrun.
    assert (Hend : r = Done {| code := 200;
                               body := Accepted taskId
                                         (S (length (queue state))) |}
                   ∧ blob after = blob wl ∧ puts after = puts wl
                   ∧ minted after = minted wl).
    { unfold bind, try_catch, send_wake, log, ret in Hrun.
      destruct (decide _); cbv beta iota in Hrun;
        [destruct (send_at env (sends wl))|];
        cbv beta iota in Hrun; injection Hrun as <- <-; world;
        rewrite length_app, Nat.add_1_r; repeat split; reflexivity. }
    destruct Hend as (Hr & Hb & Hp & Hm).
    rewrite Hr, Hb, Hp, Hm, Hblob, Hputs, Hminted, length_app.
    cbn [length fmap option_fmap option_map appended queue tasks].
    split; [reflexivity|]. split; [reflexivity|]. split; [lia|].
    split; [lia|].
    intros other old Hother. f_equal.
    rewrite lookup_insert_ne; [exact Hother|].
    intros Heq. rewrite <- Heq in Hother. unfold taskId, state in Hother.
    rewrite Hfresh in Hother. discriminate.
Qed.

Lemma admission_skips_colliding_identifiers_witness :
  let after :=
    Admission.queue_task 5 (post_request None) calm
      (fresh_world (Some two_collisions)) in
  after.1
    = Done {| code := 200; body := Accepted "task-1700000000000-2" 2 |} ∧
  length (puts after.2) = 1%nat ∧ minted after.2 = 3%nat.
Proof.
  destruct (admission_skips_colliding_identifiers calm
              (fresh_world (Some two_collisions)) 5 (post_request None) 2)
    as (Hres & _ & Hputs & Hminted & _).
  - reflexivity.
  - discriminate.
  - lia.
  - intros j Hj. destruct j as [|[|j]]; [| |lia];
      refine (bool_decide_unpack _ _); vm_compute; exact I.
  - vm_compute. reflexivity.
  - reflexivity.
  - cbv zeta. rewrite Hres, Hputs, Hminted. vm_compute. tauto.
Defined.

(** ** The rate-limit block of the status projection *)

Lemma status_rate_block_run env w req :
  method req = "GET" ->
  let recent := in_window (now_at env (ticks w)) (starts (view (blob w))) in
  ∃ r w',
    queue_status req env w
      = (Done {| code := 200; body := Reported r |}, w') ∧
    used (rateLimit r) = length recent ∧
    remaining (rateLimit r) = Z.max 0 (250 - Z.of_nat (length recent)) ∧
    resetAt (rateLimit r)
      = match recent with
        | [] => None
        | _ => (λ m, m + 60000) <$> Math_min recent
        end.
Proof.
  intros Hget recent. unfold queue_status. rewrite Hget.
  destruct (decide _) as [Hne|_]; [contradiction|].
  unfold try_catch, bind at 1. rewrite getQueueState_run.
  unfold bind at 1, Date_now at 1. cbv beta iota.
  unfold bind at 1. rewrite history_view_run. world.
  unfold ret. do 2 eexists. split; [reflexivity|].
  cbn [rateLimit used remaining resetAt].
  fold (in_window (now_at env (ticks w)) (starts (view (blob w)))).
  fold recent.
  split; [reflexivity|]. split; [reflexivity|].
  destruct (decide (0 < length (starts (view (blob w))))%nat) as [Hlog|Hlog].
  - destruct (decide (0 < length recent)%nat) as [Hsome|Hnone].
    + destruct recent; [simpl in Hsome; lia|reflexivity].
    + destruct recent; [reflexivity|simpl in Hnone; lia].
  - assert (Hempty : starts (view (blob w)) = []).
    { destruct (starts (view (blob w))); [reflexivity|simpl in Hlog; lia]. }
    unfold recent. rewrite Hempty. reflexivity.
Qed.

(** X20.  In every status report the remaining budget lies between 0 and
    250, it is 250 minus the starts used while these are at most 250 and 0
    beyond; the reset time is null exactly when no start is used, and
    otherwise it lies after the clock reading of the report, by at most one
    minute when no start in the log is later than that reading. *)
Theorem rate_block_bounds env w req :
  method req = "GET" ->
  let now := now_at env (ticks w) in
  ∃ r w',
    queue_status req env w
      = (Done {| code := 200; body := Reported r |}, w') ∧
    0 <= remaining (rateLimit r) <= 250 ∧
    ((used (rateLimit r) <= 250)%nat →
     remaining (rateLimit r) = 250 - Z.of_nat (used (rateLimit r))) ∧
    ((250 <= used (rateLimit r))%nat → remaining (rateLimit r) = 0) ∧
    (resetAt (rateLimit r) = None ↔ used (rateLimit r) = 0%nat) ∧
    (∀ reset, resetAt (rateLimit r) = Some reset → now < reset) ∧
    (Forall (λ timestamp, timestamp <= now) (starts (view (blob w))) →
     ∀ reset, resetAt (rateLimit r) = Some reset → reset <= now + 60000).
Proof.
  intros Hget now.
  destruct (status_rate_block_run env w req Hget)
    as (r & w' & Hrun & Hused & Hrem & Hreset).
  exists r, w'. split; [exact Hrun|].
  rewrite Hused, Hrem, Hreset.
  set (recent := in_window (now_at env (ticks w)) (starts (view (blob w)))).
  pose proof (Math_min_spec recent) as Hmin.
  split; [lia|]. split; [lia|]. split; [lia|]. split; [|split].
  - destruct recent as [|t ts] eqn:Hrecent; [tauto|].
    destruct (Math_min (t :: ts)); cbn; split; discriminate.
  - intros reset. destruct recent as [|t ts] eqn:Hrecent; [discriminate|].
    destruct (Math_min (t :: ts)) as [m|]; [|discriminate].
    cbn. intros [= <-]. destruct Hmin as [Hin _].
    rewrite <- Hrecent in Hin. unfold recent, in_window in Hin.
    apply list_elem_of_filter in Hin as [Hafter _]. fold now in Hafter. lia.
  - intros Hpast reset.
    destruct recent as [|t ts] eqn:Hrecent; [discriminate|].
    destruct (Math_min (t :: ts)) as [m|]; [|discriminate].
    cbn. intros [= <-]. destruct Hmin as [Hin _].
    rewrite <- Hrecent in Hin. unfold recent, in_window in Hin.
    apply list_elem_of_filter in Hin as [_ Hin].
    rewrite Forall_forall in Hpast. specialize (Hpast m Hin). lia.
Qed.

Lemma rate_block_bounds_witness :
  ∃ r w',
    queue_status get_request calm (fresh_world (Some window_full))
      = (Done {| code := 200; body := Reported r |}, w') ∧
    remaining (rateLimit r) = 0 ∧
    resetAt (rateLimit r) = Some 1700000059000.
Proof.
  destruct (rate_block_bounds calm (fresh_world (Some window_full))
              get_request eq_refl)
    as (r & w' & Hrun & _).
  exists r, w'. split; [exact Hrun|].
  vm_compute in Hrun. injection Hrun as <- <-. vm_compute. tauto.
Defined.

(** ** Clear and the status projection together *)

(** X21.  After a clear whose write is taken, the status projection reports
    nothing queued, nothing processing, nothing completed, no task at all,
    the whole budget of 250 and no reset time, whatever the store held
    before. *)
Theorem status_after_clear_is_empty env w req env2 :
  method req = "POST" ->
  set_at env (length (puts w)) = None ->
  ∃ r w2,
    queue_status get_request env2 (clear_queue req env w).2
      = (Done {| code := 200; body := Reported r |}, w2) ∧
    r_queued r = [] ∧ r_processing r = [] ∧ r_completed r = [] ∧
    stats r = {| queuedCount := 0; processingCount := 0;
                 completedCount := 0; totalTasks := 0 |} ∧
    rateLimit r = {| limit := 250; windowSeconds := 60; used := 0;
                     remaining := 250; resetAt := None |}.
Proof.
  intros Hpost Hset.
  assert (Hblob : blob (clear_queue req env w).2 = Some emptyState).
  { unfold clear_queue. rewrite Hpost.
    destruct (decide _) as [Hne|_]; [contradiction|].
    unfold try_catch, bind, store_set. rewrite Hset. reflexivity. }
  unfold queue_status.
  destruct (decide _) as [Hne|_]; [contradiction Hne; reflexivity|].
  unfold try_catch, bind at 1. rewrite getQueueState_run, Hblob.
  unfold bind at 1, Date_now at 1. cbv beta iota.
  unfold bind at 1, history. cbn [view emptyState rateLimitHistory].
  unfold ret. do 2 eexists. split; [reflexivity|].
  cbn. repeat split; reflexivity.
Qed.

Lemma status_after_clear_is_empty_witness :
  ∃ r w2,
    queue_status get_request calm
      (clear_queue (post_request None) calm (fresh_world (Some busy))).2
      = (Done {| code := 200; body := Reported r |}, w2) ∧
    totalTasks (stats r) = 0%nat ∧ remaining (rateLimit r) = 250.
Proof.
  destruct (status_after_clear_is_empty calm (fresh_world (Some busy))
              (post_request None) calm eq_refl eq_refl)
    as (r & w2 & Hrun & _ & _ & _ & Hstats & Hrate).
  exists r, w2. split; [exact Hrun|]. rewrite Hstats, Hrate. tauto.
Defined.
